(** * server.js of NeteaseCloudMusicApi: a shallow embedding

    The file follows [server.js]: module discovery and route derivation
    ([getModulesDefinitions]), the cookie-parsing middleware, the assembly
    of the handler's parameter object, the outbound-call wrapper with the
    client IP, the translation of a handler's outcome into calls on the
    response object, and the response cache in front of the routes.

    Data model.
    - A JavaScript string is its sequence of UTF-16 code units, [list N].
    - A JavaScript value is a [jsval]; numbers are IEEE doubles ([float]),
      arrays are lists, objects are finite maps from property names to
      values (own properties; property names are plain map keys).
    - The response object is write-only for this code, so its state is the
      list of method calls made on it, in order. *)

From Stdlib Require Import ZArith NArith List String Ascii Floats.PrimFloat Lia.
From stdpp Require Import gmap list strings fin_maps pretty sorting.

Set Default Proof Using "Type".
Set Warnings "-register-all".

(** ** Strings *)

Abbreviation jsstring := (list N).

(** The code units of an ASCII literal. *)
Definition js (s : string) : jsstring :=
  N_of_ascii <$> list_ascii_of_string s.

(** The class [\s] of a regular expression, which is also the set that
    [String.prototype.trim] strips: WhiteSpace and LineTerminator. *)
Definition is_space (c : N) : bool :=
  ((9 <=? c) && (c <=? 13) || (c =? 32) || (c =? 160) || (c =? 5760)
   || (8192 <=? c) && (c <=? 8202) || (c =? 8232) || (c =? 8233)
   || (c =? 8239) || (c =? 8287) || (c =? 12288) || (c =? 65279))%N.

Fixpoint skip_spaces (s : jsstring) : jsstring :=
  match s with
  | c :: s' => if is_space c then skip_spaces s' else s
  | [] => []
  end.

(** [s.trim()] *)
Definition trim (s : jsstring) : jsstring :=
  rev (skip_spaces (rev (skip_spaces s))).

(** [s.indexOf(c)] for a one-unit needle: the first index, or -1. *)
Fixpoint indexOf (c : N) (s : jsstring) : Z :=
  match s with
  | [] => (-1)%Z
  | d :: s' =>
      if (d =? c)%N then 0%Z
      else let i := indexOf c s' in if (i <? 0)%Z then (-1)%Z else (i + 1)%Z
  end.

(** [s.slice(0, n)] and [s.slice(n)] for [0 <= n]. *)
Definition slice_to (n : Z) (s : jsstring) : jsstring := take (Z.to_nat n) s.
Definition slice_from (n : Z) (s : jsstring) : jsstring := drop (Z.to_nat n) s.

(** [s.substr(0, n)] and [s.substr(n)] for a literal [n]. *)
Definition substr0 (n : nat) (s : jsstring) : jsstring := take n s.
Definition substr_from (n : nat) (s : jsstring) : jsstring := drop n s.

Definition semicolon : N := 59.
Definition equals_sign : N := 61.
Definition percent : N := 37.
Definition underscore : N := 95.
Definition slash : N := 47.
Definition dot : N := 46.

(** The name [__proto__], which [Object.prototype] defines as an accessor. *)
Definition proto_key : jsstring := js "__proto__".

(** ** The cookie-parsing middleware (server.js, lines 161-175) *)

Module Cookie.

(** One attempt of [/;\s+|(?<!\s)\s+$/] at index [q] of [subject]: the end
    index of the match. The first alternative is a [;] and the longest run
    of [\s] after it, at least one; the second is tried when the first
    fails: no [\s] before [q], and from [q] on nothing but [\s], at least
    one, up to the end of the subject. *)
Definition exec_at (subject : jsstring) (q : nat) : option nat :=
  match drop q subject with
  | [] => None
  | c :: rest =>
      let after_spaces := skip_spaces rest in
      if (c =? semicolon)%N && (length after_spaces <? length rest)
      then Some (length subject - length after_spaces)
      else
        let behind :=
          match q with
          | O => false
          | S q' => from_option is_space false (subject !! q')
          end in
        if negb behind && is_space c && forallb is_space rest
        then Some (length subject)
        else None
  end.

(** The loop of [RegExp.prototype[Symbol.split]]: [p] is the start of the
    current fragment and [q] the index where a match is tried. A match
    here is never empty, so the case [e = p] of the loop does not arise.
    Each step moves [q] forward, and [fuel] bounds the steps. *)
Fixpoint split_loop (fuel : nat) (subject : jsstring) (p q : nat)
  : list jsstring :=
  match fuel with
  | O => [drop p subject]
  | S fuel' =>
      if length subject <=? q then [drop p subject]
      else
        match exec_at subject q with
        | None => split_loop fuel' subject p (S q)
        | Some e => take (q - p) (drop p subject) :: split_loop fuel' subject e e
        end
  end.

(** [subject.split(/;\s+|(?<!\s)\s+$/g)]. The pattern matches no empty
    string, so the empty subject splits into one empty fragment. *)
Definition split (subject : jsstring) : list jsstring :=
  split_loop (S (length subject)) subject 0 0.

(** [cookies[name] = value] for a string [value], on an object whose
    prototype is [Object.prototype]: the name [__proto__] reaches the
    accessor of the prototype, whose setter ignores a value that is no
    object, so nothing is stored; every other name becomes or stays an
    own property. *)
Definition set_cookie (name value : jsstring)
    (cookies : gmap jsstring jsstring) : gmap jsstring jsstring :=
  if bool_decide (name = proto_key) then cookies
  else <[name := value]> cookies.

Section Parse.
(** [decode] is the package safe-decode-uri-component. *)
Variable decode : jsstring -> jsstring.

(** The body of the [forEach] callback, on [req.cookies]. *)
Definition cookie_step (cookies : gmap jsstring jsstring) (pair : jsstring)
  : gmap jsstring jsstring :=
  let crack := indexOf equals_sign pair in
  if (crack <? 1)%Z || (crack =? Z.of_nat (length pair) - 1)%Z
  then cookies
  else set_cookie (trim (decode (slice_to crack pair)))
                  (trim (decode (slice_from (crack + 1) pair)))
                  cookies.

(** [req.cookies] after the middleware; [header] is
    [req.headers.cookie], [None] when the request has none. *)
Definition parse (header : option jsstring) : gmap jsstring jsstring :=
  foldl cookie_step ∅ (split (default [] header)).
End Parse.

(** A decoder of the escapes [%hh] below [%80], every other unit kept:
    an instance of [decode] to run the middleware on concrete headers. *)
Definition hex_digit (c : N) : option N :=
  if ((48 <=? c) && (c <=? 57))%N then Some (c - 48)%N
  else if ((65 <=? c) && (c <=? 70))%N then Some (c - 55)%N
  else if ((97 <=? c) && (c <=? 102))%N then Some (c - 87)%N
  else None.

Fixpoint decode_ascii (s : jsstring) : jsstring :=
  match s with
  | [] => []
  | c :: s' =>
      if (c =? percent)%N then
        match s' with
        | h :: l :: s'' =>
            match hex_digit h, hex_digit l with
            | Some a, Some b =>
                if (a <? 8)%N then (16 * a + b)%N :: decode_ascii s''
                else c :: decode_ascii s'
            | _, _ => c :: decode_ascii s'
            end
        | _ => c :: decode_ascii s'
        end
      else c :: decode_ascii s'
  end.

End Cookie.


(** ** Values *)

Inductive jsval :=
| JUndefined
| JNull
| JBool (b : bool)
| JNum (x : float)
| JStr (s : jsstring)
| JArr (l : list jsval)
| JObj (o : gmap jsstring jsval).

Abbreviation jsobj := (gmap jsstring jsval).

(** ToBoolean: [!v] is [negb (truthy v)]. *)
Definition truthy (v : jsval) : bool :=
  match v with
  | JUndefined | JNull => false
  | JBool b => b
  | JNum x => negb (PrimFloat.is_zero x) && negb (PrimFloat.is_nan x)
  | JStr s => negb (bool_decide (s = []))
  | JArr _ | JObj _ => true
  end.

(** [v.k] for a value [v] that is neither [undefined] nor [null] and a name
    [k] that no prototype defines and that is no index ([code], [cookie]):
    the own property of an object, [undefined] otherwise. *)
Definition get_prop (v : jsval) (k : jsstring) : jsval :=
  match v with
  | JObj o => default JUndefined (o !! k)
  | _ => JUndefined
  end.

(** [v.k = x] on an object; on a primitive the assignment stores nothing. *)
Definition set_prop (v : jsval) (k : jsstring) (x : jsval) : jsval :=
  match v with
  | JObj o => JObj (<[k := x]> o)
  | _ => v
  end.

(** [v == '301'], IsLooselyEqual with the string ['301'] on the right.
    - a string is compared unit by unit;
    - a number is compared with ToNumber('301') = 301;
    - a boolean becomes 0 or 1 and [undefined], [null] equal no string;
    - an array becomes its [join(',')]: that is ['301'] only for a single
      element whose own string is ['301'] (no element gives the empty
      string, two or more give a comma; [undefined] and [null] elements
      give the empty string);
    - an object becomes ['[object Object]']. *)
Fixpoint loose_eq_301 (v : jsval) : bool :=
  match v with
  | JStr s => bool_decide (s = js "301")
  | JNum x => PrimFloat.eqb x 301
  | JArr l => match l with [e] => loose_eq_301 e | _ => false end
  | JUndefined | JNull | JBool _ | JObj _ => false
  end.

(** [v === n] for a number literal [n]. *)
Definition strict_eq_num (v : jsval) (n : float) : bool :=
  match v with JNum x => PrimFloat.eqb x n | _ => false end.

(** The property name of index [i]. *)
Definition index_key (i : nat) : jsstring := js (pretty i).

(** The own enumerable string-keyed properties of ToObject(v), which
    [Object.assign] and object spread copy from a source; nothing for
    [undefined], [null], booleans and numbers, the indices for an array
    or a string. *)
Definition own_props (v : jsval) : jsobj :=
  match v with
  | JObj o => o
  | JArr l => list_to_map (imap (fun i e => (index_key i, e)) l)
  | JStr s => list_to_map (imap (fun i c => (index_key i, JStr [c])) s)
  | JUndefined | JNull | JBool _ | JNum _ => ∅
  end.

(** The prototype of the object that [Object.assign] fills:
    [Object.prototype], [null], or a value of a source. A value of a
    source is an object or an array as a parser builds it, whose own
    prototype chain ends in [Object.prototype]. *)
Inductive prototype :=
| ObjectPrototype
| NullPrototype
| ValuePrototype (v : jsval).

(** The target of [Object.assign]: its own properties and its
    prototype. *)
Record assigned := {
  own : jsobj;
  proto : prototype;
}.

(** Whether a lookup of [__proto__] that starts at this prototype ends at
    the accessor of [Object.prototype]: not below [null], and not below an
    object that has a property [__proto__] of its own. *)
Definition reaches_setter (p : prototype) : bool :=
  match p with
  | ObjectPrototype => true
  | NullPrototype => false
  | ValuePrototype (JObj o) => negb (bool_decide (is_Some (o !! proto_key)))
  | ValuePrototype _ => true
  end.

(** [target.__proto__ = v] as [Object.assign] writes it, with [[Set]]:
    an own property [__proto__] is overwritten; where the lookup ends at
    the accessor, its setter makes an object, an array or [null] the
    prototype of the target and ignores any other value; otherwise the
    target gets the own property. *)
Definition set_proto_key (v : jsval) (t : assigned) : assigned :=
  if bool_decide (is_Some (own t !! proto_key)) || negb (reaches_setter (proto t))
  then {| own := <[proto_key := v]> (own t); proto := proto t |}
  else
    match v with
    | JObj _ | JArr _ => {| own := own t; proto := ValuePrototype v |}
    | JNull => {| own := own t; proto := NullPrototype |}
    | JUndefined | JBool _ | JNum _ | JStr _ => t
    end.

(** One source of [Object.assign]: each own property of the source is
    written to the target with [[Set]]. A name other than [__proto__]
    becomes or stays an own property of the target, whatever the
    prototype; the names of a source are distinct, so the order in which
    they are written does not matter. *)
Definition assign_source (t : assigned) (s : jsval) : assigned :=
  let props := own_props s in
  let t' := {| own := delete proto_key props ∪ own t; proto := proto t |} in
  match props !! proto_key with
  | Some v => set_proto_key v t'
  | None => t'
  end.

(** [Object.assign(target, ...sources)] on a target whose prototype is
    [Object.prototype]: the sources left to right; the result with its
    prototype, and its own properties. *)
Definition Object_assign_target (target : jsobj) (sources : list jsval)
  : assigned :=
  foldl assign_source {| own := target; proto := ObjectPrototype |} sources.

Definition Object_assign (target : jsobj) (sources : list jsval) : jsobj :=
  own (Object_assign_target target sources).

(** ** Module discovery (server.js, lines 65-89 and 197-212) *)

Module Registry.

(** [s.endsWith(suffix)] *)
Definition endsWith (suffix s : jsstring) : bool :=
  (length suffix <=? length s)
  && bool_decide (drop (length s - length suffix) s = suffix).

(** [s.replace(/\.js$/i, '')]: the pattern can match only three units
    before the end; under [i] the units [j], [J] and [s], [S] match. *)
Definition strip_js (s : jsstring) : jsstring :=
  match drop (length s - 3) s with
  | [d; j; x] =>
      if (3 <=? length s) && (d =? dot)%N && ((j =? 106) || (j =? 74))%N
         && ((x =? 115) || (x =? 83))%N
      then take (length s - 3) s
      else s
  | _ => s
  end.

(** [s.replace(/_/g, '/')] *)
Definition underscores_to_slashes (s : jsstring) : jsstring :=
  (fun c => if (c =? underscore)%N then slash else c) <$> s.

(** [parseRoute]; [specificRoute] is [None] when the argument is left
    out. A module file name ends in [.js], so it is no property of
    [Object.prototype] and [in] is a lookup in the table itself. *)
Definition parseRoute (specificRoute : option (gmap jsstring jsstring))
    (fileName : jsstring) : jsstring :=
  match specificRoute ≫= (.!! fileName) with
  | Some route => route
  | None => slash :: underscores_to_slashes (strip_js fileName)
  end.

(** [file.split('.').shift()]: the units before the first dot. *)
Fixpoint identifier_of (file : jsstring) : jsstring :=
  match file with
  | [] => []
  | c :: file' => if (c =? dot)%N then [] else c :: identifier_of file'
  end.

Section Discovery.
(** The loaded module of a path, and [path.join]. *)
Context {Mod : Type}.
Variable require : jsstring -> Mod.
Variable path_join : jsstring -> jsstring -> jsstring.

Record ModuleDefinition := {
  identifier : jsstring;
  route : jsstring;
  module : Mod + jsstring;
}.

(** [files] is the result of [fs.promises.readdir(modulesPath)]. *)
Definition getModulesDefinitions (files : list jsstring)
    (modulesPath : jsstring)
    (specificRoute : option (gmap jsstring jsstring))
    (doRequire : bool) : list ModuleDefinition :=
  (fun file =>
     let modulePath := path_join modulesPath file in
     {| identifier := identifier_of file;
        route := parseRoute specificRoute file;
        module := if doRequire then inl (require modulePath)
                  else inr modulePath |})
  <$> filter (fun file => endsWith (js ".js") file = true) (reverse files).

(** The calls [app.use(moduleDef.route, ...)] of the registration loop,
    in order, each with the module its handler runs. *)
Definition register (moduleDefinitions : list ModuleDefinition)
  : list (jsstring * (Mod + jsstring)) :=
  (fun moduleDef => (route moduleDef, module moduleDef)) <$> moduleDefinitions.
End Discovery.

(** The table [special] of [consturctServer]. *)
Definition special : gmap jsstring jsstring :=
  <[js "daily_signin.js" := js "/daily_signin"]>
  (<[js "fm_trash.js" := js "/fm_trash"]>
   (<[js "personal_fm.js" := js "/personal_fm"]> ∅)).

(** The route of a module file as the specification words it: the suffix
    cut off, each underscore turned into a separator, a separator in
    front. *)
Definition route_by_rule (fileName : jsstring) : jsstring :=
  slash :: ((fun c => if bool_decide (c = underscore) then slash else c)
            <$> take (length fileName - length (js ".js")) fileName).

End Registry.

(** ** The route handler (server.js, lines 210-286) *)

Module Dispatcher.

(** What a module resolves or rejects with; an absent field is
    [JUndefined]. *)
Record moduleResponse := {
  status : jsval;
  body : jsval;
  cookie : jsval;
}.

Inductive outcome :=
| Resolved (r : moduleResponse)
| Rejected (r : moduleResponse).

(** The calls the handler makes on [res]. *)
Inductive res_call :=
| Append (field : jsstring) (value : jsval)
| Status (code : jsval)
| Send (payload : jsval).

(** The parts of [req] the handler reads. [req.query] and [req.body] are
    objects; [req.files] is [undefined] without an upload. *)
Record Request := {
  cookies : gmap jsstring jsstring;
  query : jsobj;
  body_fields : jsobj;
  files : jsval;
  ip : jsstring;
  protocol : jsstring;
}.

(** [{ code: 404, data: null, msg: 'Not Found' }] *)
Definition not_found : jsval :=
  JObj (<[js "code" := JNum 404]>
        (<[js "data" := JNull]>
         (<[js "msg" := JStr (js "Not Found")]> ∅))).

(** The message written over [body.msg], four units outside ASCII. *)
Definition login_required : jsstring := [38656; 35201; 30331; 24405]%N.

Definition same_site : jsstring := js "; SameSite=None; Secure".

(** [ip] after the [::ffff:] test of the wrapper. *)
Definition normalize_ip (ip : jsstring) : jsstring :=
  if bool_decide (substr0 7 ip = js "::ffff:") then substr_from 7 ip else ip.

(** [obj[3] = v] on an array: a shorter array grows, and the indices
    left empty read as [undefined] when the array is spread. *)
Definition set_fourth (obj : list jsval) (v : jsval) : list jsval :=
  if length obj <=? 3
  then obj ++ replicate (3 - length obj) JUndefined ++ [v]
  else <[3 := v]> obj.

(** The arguments the wrapper passes to [request]. *)
Definition wrapper_args (req_ip : jsstring) (params : list jsval)
  : list jsval :=
  let obj := params in
  let ip := normalize_ip req_ip in
  set_fourth obj
    (JObj (<[js "ip" := JStr ip]>
           (own_props (default JUndefined (obj !! 3))))).

Section Handler.
(** [decode] is the package safe-decode-uri-component, [cookieToJson]
    the function of util/index, and [ToString] the string the language
    gives an operand of [+] that is not a string itself. *)
Variable decode : jsstring -> jsstring.
Variable cookieToJson : jsstring -> jsval.
Variable ToString : jsval -> jsstring.

(** The body of the [forEach] over [req.query] and [req.body]. *)
Definition cookie_to_json (item : jsobj) : jsobj :=
  let cookie := default JUndefined (item !! js "cookie") in
  match cookie with
  | JStr s => <[js "cookie" := cookieToJson (decode s)]> item
  | _ => item
  end.

Definition cookie_fields_to_json (req : Request) : Request :=
  {| cookies := cookies req;
     query := cookie_to_json (query req);
     body_fields := cookie_to_json (body_fields req);
     files := files req;
     ip := ip req;
     protocol := protocol req |}.

(** The object [query] given to the module. *)
Definition parameters (req : Request) : jsobj :=
  Object_assign ∅
    [JObj {[js "cookie" := JObj (JStr <$> cookies req)]};
     JObj (query req);
     JObj (body_fields req);
     files req].

(** [parameters] gives the own properties of that object; this is its
    prototype. *)
Definition parameters_prototype (req : Request) : prototype :=
  proto
    (Object_assign_target ∅
       [JObj {[js "cookie" := JObj (JStr <$> cookies req)]};
        JObj (query req);
        JObj (body_fields req);
        files req]).

(** [cookie + '; SameSite=None; Secure'] *)
Definition add_same_site (cookie : jsval) : jsval :=
  match cookie with
  | JStr s => JStr (s ++ same_site)
  | _ => JStr (ToString cookie ++ same_site)
  end.

(** The [try] block after the module has resolved. *)
Definition on_success (req : Request) (r : moduleResponse)
  : list res_call :=
  let cookies := cookie r in
  match cookies with
  | JArr (c :: l) =>
      if bool_decide (protocol req = js "https")
      then [Append (js "Set-Cookie") (JArr (add_same_site <$> c :: l))]
      else [Append (js "Set-Cookie") cookies]
  | _ => []
  end ++ [Status (status r); Send (body r)].

(** The [catch] block. *)
Definition on_failure (r : moduleResponse) : list res_call :=
  if negb (truthy (body r))
  then [Status (JNum 404); Send not_found]
  else
    let body' :=
      if loose_eq_301 (get_prop (body r) (js "code"))
      then set_prop (body r) (js "msg") (JStr login_required)
      else body r in
    [Append (js "Set-Cookie") (cookie r); Status (status r); Send body'].

(** [request] is the outbound client of util/request and [module] the
    handler of the route. *)
Context {Resp : Type}.
Variable request : list jsval -> Resp.
Variable module : jsobj -> (list jsval -> Resp) -> outcome.

(** The function given to the module as its second argument. *)
Definition wrapper (req_ip : jsstring) : list jsval -> Resp :=
  fun params => request (wrapper_args req_ip params).

(** [moduleDef.module(query, wrapper)], awaited. *)
Definition call_module (req : Request) : outcome :=
  module (parameters req) (wrapper (ip req)).

(** The handler of a route: the request as it leaves the handler, and
    the calls made on [res]. *)
Definition route_handler (req : Request) : Request * list res_call :=
  let req := cookie_fields_to_json req in
  (req,
   match call_module req with
   | Resolved moduleResponse => on_success req moduleResponse
   | Rejected moduleResponse => on_failure moduleResponse
   end).
End Handler.

End Dispatcher.

(** ** Every way a module can settle (server.js, lines 229-285) *)

Module Settlement.
Import Dispatcher.

(** What the promise of a module settles with: a value whose fields
    [status], [body] and [cookie] can be read ([Some], a field that is
    absent reads [undefined], as every field of a primitive does), or
    [undefined] or [null] ([None]), where reading a field throws. *)
Inductive settled :=
| Resolves (v : option moduleResponse)
| Rejects (v : option moduleResponse).

(** The fields that the [catch] block reads from the [TypeError] that the
    [try] block throws at [moduleResponse.cookie]. *)
Definition type_error : moduleResponse :=
  {| status := JUndefined; body := JUndefined; cookie := JUndefined |}.

Section Answer.
Variable decode : jsstring -> jsstring.
Variable cookieToJson : jsstring -> jsval.
Variable ToString : jsval -> jsstring.

(** The calls on [res] of the [try] and [catch] blocks; [None] when the
    [catch] block itself throws, at [moduleResponse.status], before any
    call on [res]. *)
Definition answer (req : Request) (s : settled) : option (list res_call) :=
  match s with
  | Resolves (Some moduleResponse) =>
      Some (on_success ToString req moduleResponse)
  | Resolves None => Some (on_failure type_error)
  | Rejects (Some moduleResponse) => Some (on_failure moduleResponse)
  | Rejects None => None
  end.

Context {Resp : Type}.
Variable request : list jsval -> Resp.
Variable module : jsobj -> (list jsval -> Resp) -> settled.

(** [moduleDef.module(query, wrapper)], awaited. *)
Definition call_module (req : Request) : settled :=
  module (parameters req) (wrapper request (ip req)).

(** The handler of a route, for every way the module can settle. *)
Definition route_handler (req : Request)
  : Request * option (list res_call) :=
  let req := cookie_fields_to_json decode cookieToJson req in
  (req, answer req (call_module req)).
End Answer.

(** A module that settles with a value whose fields can be read. *)
Definition of_outcome (o : outcome) : settled :=
  match o with
  | Resolved r => Resolves (Some r)
  | Rejected r => Rejects (Some r)
  end.

End Settlement.

(** ** The response cache (server.js, lines 189-192) *)

Module Cache.
Import Dispatcher.

(** Modelled from the spec: the status of the response that the
    dispatcher produced (sections 4.4 and 4.5), which the test of the
    cache reads as [res.statusCode]; [res] is not part of server.js. It
    is what the last [status] call set, 200 before any. *)
Definition statusCode (calls : list res_call) : jsval :=
  foldl (fun code c => match c with Status v => v | _ => code end)
        (JNum 200) calls.

(** The second argument of [cache]: [(_, res) => res.statusCode === 200]. *)
Definition toggle (calls : list res_call) : bool :=
  strict_eq_num (statusCode calls) 200.

(** The first argument of [cache], ['2 minutes'], in milliseconds. *)
Definition duration : N := 120000.

Section Middleware.
Context {Req : Type}.
(** The identity of a request, and the routes behind the cache. *)
Variable key : Req -> jsstring.
Variable handler : Req -> list res_call.

Record entry := {
  value : list res_call;
  expires : N;
}.

(** The store, and the requests the handler was invoked on. *)
Record state := {
  store : gmap jsstring entry;
  invoked : list Req;
}.

Definition live (now : N) (e : entry) : bool := (now <? expires e)%N.

(** Modelled from the spec: the state after a request that went on to its
    route, in the middleware that util/apicache exports, which server.js
    installs and does not define. The response is stored under the key of
    the request, to expire after [duration], when [toggle] accepts it. *)
Definition through (now : N) (req : Req) (st : state) : state :=
  {| store := if toggle (handler req)
              then <[key req := {| value := handler req;
                                    expires := (now + duration)%N |}]>
                     (store st)
              else store st;
     invoked := invoked st ++ [req] |}.

(** Modelled from the spec: one request at the middleware of
    util/apicache. An entry that has not expired answers the request and
    the routes are skipped; otherwise the request goes on to its route.
    [now] is the clock at the request, in milliseconds. *)
Definition serve (now : N) (req : Req) (st : state)
  : list res_call * state :=
  match store st !! key req with
  | Some e =>
      if live now e then (value e, st)
      else (handler req, through now req st)
  | None => (handler req, through now req st)
  end.

(** A sequence of requests, each with the clock at its arrival. *)
Definition run (reqs : list (N * Req)) (st : state) : state :=
  foldl (fun st r => (serve r.1 r.2 st).2) st reqs.

Definition initial : state := {| store := ∅; invoked := [] |}.
End Middleware.

End Cache.

(** ** Cookie headers as a client writes them *)

Module CookieHeader.

(** [pairs.join('; ')] *)
Fixpoint join (pairs : list jsstring) : jsstring :=
  match pairs with
  | [] => []
  | [item] => item
  | item :: rest => item ++ semicolon :: 32%N :: join rest
  end.

(** [name + '=' + value] *)
Definition name_value (kv : jsstring * jsstring) : jsstring :=
  kv.1 ++ equals_sign :: kv.2.

End CookieHeader.

(** ** The CORS and preflight middleware (server.js, lines 144-156) *)

Module Cors.

(** The calls the middleware makes: on [res], and [next]. *)
Inductive call :=
| ResSet (headers : jsobj)
| ResStatus (code : jsval)
| ResEnd
| Next.

(** [req.headers.origin || '*']; the header is [None] when absent. *)
Definition allow_origin (origin : option jsstring) : jsstring :=
  match origin with
  | Some (c :: o) => c :: o
  | Some [] | None => js "*"
  end.

(** The object given to [res.set]. *)
Definition headers (origin : option jsstring) : jsobj :=
  <[js "Access-Control-Allow-Credentials" := JBool true]>
  (<[js "Access-Control-Allow-Origin" := JStr (allow_origin origin)]>
   (<[js "Access-Control-Allow-Headers"
      := JStr (js "X-Requested-With,Content-Type")]>
    (<[js "Access-Control-Allow-Methods"
       := JStr (js "PUT,POST,GET,DELETE,OPTIONS")]>
     (<[js "Content-Type"
        := JStr (js "application/json; charset=utf-8")]> ∅)))).

(** [req.path !== '/' && !req.path.includes('.')] *)
Definition is_api_path (path : jsstring) : bool :=
  negb (bool_decide (path = js "/")) && negb (bool_decide (dot ∈ path)).

Definition middleware (path method : jsstring) (origin : option jsstring)
  : list call :=
  (if is_api_path path then [ResSet (headers origin)] else [])
  ++ (if bool_decide (method = js "OPTIONS")
      then [ResStatus (JNum 204); ResEnd]
      else [Next]).

End Cors.

(** ** The version check and the start of the server
       (server.js, lines 17-21, 98-126 and 296-323) *)

Module Version.

Inductive VERSION_CHECK_RESULT := FAILED | NOT_LATEST | LATEST.

(** The numbers of the enumeration. *)
Definition number (r : VERSION_CHECK_RESULT) : Z :=
  match r with
  | FAILED => (-1)%Z
  | NOT_LATEST => 0%Z
  | LATEST => 1%Z
  end.

Record VersionCheckResult := {
  status : VERSION_CHECK_RESULT;
  ourVersion : option jsstring;
  npmVersion : option jsstring;
}.

(** [a < b] on strings: the order of the code units, a proper prefix
    first. *)
Fixpoint string_lt (a b : jsstring) : bool :=
  match a, b with
  | _, [] => false
  | [], _ :: _ => true
  | x :: a', y :: b' =>
      if (x <? y)%N then true
      else if (y <? x)%N then false
      else string_lt a' b'
  end.

(** A call of [resolve] on a promise: [None] is a pending promise, and a
    promise that has a value keeps it. *)
Definition resolve {A} (v : A) (promise : option A) : option A :=
  match promise with
  | None => Some v
  | Some _ => promise
  end.

(** The callback given to [exec]; [err] tells whether [exec] reports an
    error, and [packageVersion] is [packageJSON.version]. *)
Definition exec_callback (packageVersion : jsstring) (err : bool)
    (stdout : jsstring) (promise : option VersionCheckResult)
  : option VersionCheckResult :=
  if negb err then
    let version := trim stdout in
    resolve {| status := if string_lt packageVersion version
                         then NOT_LATEST else LATEST;
               ourVersion := Some packageVersion;
               npmVersion := Some version |}
            promise
  else promise.

(** The promise of [checkVersion]. The executor starts [exec], whose
    callback runs once the child process has ended, and calls [resolve]
    itself before it returns. [ended] is what [exec] reports to the
    callback, [None] while the process has not ended. *)
Definition checkVersion (packageVersion : jsstring)
    (ended : option (bool * jsstring)) : option VersionCheckResult :=
  let promise : option VersionCheckResult := None in
  let promise :=
    resolve {| status := FAILED; ourVersion := None; npmVersion := None |}
            promise in
  match ended with
  | Some (err, stdout) => exec_callback packageVersion err stdout promise
  | None => promise
  end.

(** Whether [serveNcmApi] prints the notice of a newer version:
    [options.checkVersion] is set and the promise has a value with
    [status == VERSION_CHECK_RESULT.NOT_LATEST]. *)
Definition notice_printed (options_checkVersion : bool)
    (promise : option VersionCheckResult) : bool :=
  options_checkVersion
  && match promise with
     | Some r => (number (status r) =? number NOT_LATEST)%Z
     | None => false
     end.

(** [a || b] *)
Definition or_else (a b : jsval) : jsval := if truthy a then a else b.

(** The argument of [Number] for the port, and the host. *)
Definition port_argument (options_port env_PORT : jsval) : jsval :=
  or_else (or_else options_port env_PORT) (JStr (js "3000")).

Definition host (options_host env_HOST : jsval) : jsval :=
  or_else (or_else options_host env_HOST) (JStr []).

(** [host ? host : 'localhost'], the host in the line that is logged. *)
Definition logged_host (host : jsval) : jsval :=
  if truthy host then host else JStr (js "localhost").

End Version.

(** ** Concrete collaborators

    Instances of the functions the handler takes from elsewhere, with
    requests and modules, to run the definitions above. *)

Module Sample.
Import Dispatcher.

Definition decode : jsstring -> jsstring := Cookie.decode_ascii.

(** The cookies of a string, as an object of strings. *)
Definition cookieToJson (s : jsstring) : jsval :=
  JObj (JStr <$> Cookie.parse decode (Some s)).

Definition ToString (v : jsval) : jsstring :=
  match v with
  | JStr s => s
  | JUndefined => js "undefined"
  | JNull => js "null"
  | JBool true => js "true"
  | JBool false => js "false"
  | JNum _ | JArr _ | JObj _ => js "[object Object]"
  end.

(** An outbound client that hands back its arguments. *)
Definition request (args : list jsval) : list jsval := args.

Definition rejecting (r : moduleResponse)
  : jsobj -> (list jsval -> list jsval) -> outcome :=
  fun _ _ => Rejected r.

Definition resolving (r : moduleResponse)
  : jsobj -> (list jsval -> list jsval) -> outcome :=
  fun _ _ => Resolved r.

(** A module that answers with the parameters it was given. *)
Definition echo : jsobj -> (list jsval -> list jsval) -> outcome :=
  fun query _ =>
    Resolved {| status := JNum 200; body := JObj query; cookie := JUndefined |}.

Definition no_body : moduleResponse :=
  {| status := JNum 500;
     body := JUndefined;
     cookie := JArr [JStr (js "a=1")] |}.

Definition need_login : moduleResponse :=
  {| status := JNum 301;
     body := JObj (<[js "code" := JNum 301]> {[js "msg" := JStr (js "x")]});
     cookie := JUndefined |}.

Definition bad_request : moduleResponse :=
  {| status := JNum 400;
     body := JObj {[js "code" := JNum 400]};
     cookie := JUndefined |}.

Definition ok : moduleResponse :=
  {| status := JNum 200;
     body := JObj {[js "code" := JNum 200]};
     cookie := JArr [JStr (js "MUSIC_U=abc; Path=/")] |}.

Definition req : Request :=
  {| cookies := {[js "a" := js "1"]};
     query := <[js "cookie" := JStr (js "MUSIC_U%3Dabc")]>
                {[js "a" := JStr (js "2")]};
     body_fields := <[js "cookie" := JNum 7]> {[js "a" := JStr (js "3")]};
     files := JObj {[js "a" := JStr (js "4")]};
     ip := js "::ffff:127.0.0.1";
     protocol := js "https" |}.

(** A loader that stands for a module by its path, and a [path.join] of
    two segments. *)
Definition require (modulePath : jsstring) : jsstring := modulePath.

Definition path_join (dir file : jsstring) : jsstring :=
  dir ++ slash :: file.

(** A directory listing, and the listing and table of the example in the
    comment of [getModulesDefinitions], with a module for the route that
    the table gives to another. *)
Definition listing : list jsstring :=
  [js "README.md"; js "daily_signin.js"; js "user.js"; js "user_detail.js"].

Definition album_listing : list jsstring :=
  [js "album_create.js"; js "album_new.js"].

Definition album_table : gmap jsstring jsstring :=
  {[js "album_new.js" := js "/album/create"]}.

(** Pages behind the cache, by their URL: one fails, the others answer
    200 with the URL as the body. *)
Definition page (url : jsstring) : list res_call :=
  if bool_decide (url = js "/fail")
  then [Status (JNum 500); Send (JObj {[js "code" := JNum 500]})]
  else [Status (JNum 200); Send (JStr url)].

Definition url_key (url : jsstring) : jsstring := url.

(** A request whose JSON body has the key [__proto__]. *)
Definition req_proto : Request :=
  {| cookies := ∅;
     query := ∅;
     body_fields := <[proto_key := JObj {[js "admin" := JBool true]}]>
                      {[js "a" := JStr (js "3")]};
     files := JUndefined;
     ip := js "192.168.1.20";
     protocol := js "http" |}.

(** The request of the merge example: every source has the key [a]. *)
Definition req_a : Request :=
  {| cookies := {[js "a" := js "1"]};
     query := {[js "a" := JStr (js "2")]};
     body_fields := {[js "a" := JStr (js "3")]};
     files := JObj {[js "a" := JStr (js "4")]};
     ip := js "192.168.1.20";
     protocol := js "http" |}.

End Sample.

(** * Properties *)

(** ** Cookie parsing *)

Lemma indexOf_range c s : (-1 <= indexOf c s < Z.of_nat (length s))%Z.
Proof.
  induction s as [|d s IH]; simpl; [lia|].
  destruct (d =? c)%N; [lia|].
  destruct (indexOf c s <? 0)%Z eqn:E; lia.
Qed.

Lemma indexOf_absent c s : indexOf c s = (-1)%Z <-> c ∉ s.
Proof.
  induction s as [|d s IH]; simpl.
  - split; [intros _; apply not_elem_of_nil | done].
  - destruct (N.eqb_spec d c) as [->|Hne].
    + split; [lia | intros H; destruct H; left].
    + pose proof (indexOf_range c s).
      destruct (indexOf c s <? 0)%Z eqn:E.
      * apply Z.ltb_lt in E.
        split; [intros _ | done].
        rewrite not_elem_of_cons. split; [congruence | apply IH; lia].
      * apply Z.ltb_ge in E.
        split; [lia|]. rewrite not_elem_of_cons. intros [_ Hs].
        apply IH in Hs. lia.
Qed.

Lemma indexOf_head c s : indexOf c (c :: s) = 0%Z.
Proof. simpl. by rewrite N.eqb_refl. Qed.

(** The fragments the middleware skips: no [=], an [=] in front, or the
    first [=] at the end. *)
Lemma cookie_step_skips decode cookies pair :
  equals_sign ∉ pair
  ∨ (∃ rest, pair = equals_sign :: rest)
  ∨ indexOf equals_sign pair = (Z.of_nat (length pair) - 1)%Z ->
  Cookie.cookie_step decode cookies pair = cookies.
Proof.
  unfold Cookie.cookie_step. intros [H|[[rest ->]|H]].
  - apply indexOf_absent in H. by rewrite H.
  - by rewrite indexOf_head.
  - rewrite H, Z.eqb_refl. by rewrite orb_true_r.
Qed.

(** A fragment with its first [=] inside is stored, key and value decoded
    and trimmed. *)
Lemma cookie_step_stores decode cookies pair :
  (1 <= indexOf equals_sign pair < Z.of_nat (length pair) - 1)%Z ->
  Cookie.cookie_step decode cookies pair
  = Cookie.set_cookie
      (trim (decode (slice_to (indexOf equals_sign pair) pair)))
      (trim (decode (slice_from (indexOf equals_sign pair + 1) pair)))
      cookies.
Proof.
  unfold Cookie.cookie_step. intros H.
  destruct (Z.ltb_spec (indexOf equals_sign pair) 1); [lia|].
  destruct (Z.eqb_spec (indexOf equals_sign pair)
              (Z.of_nat (length pair) - 1)); [lia | done].
Qed.

(** The fuel of [Cookie.split] is enough: more changes nothing. *)
Lemma split_loop_fuel subject : forall fuel fuel' p q,
  length subject - q < fuel -> length subject - q < fuel' ->
  Cookie.split_loop fuel subject p q = Cookie.split_loop fuel' subject p q.
Proof.
  induction fuel as [|fuel IH]; intros fuel' p q H H'; [lia|].
  destruct fuel' as [|fuel']; [lia|]. simpl.
  destruct (Nat.leb_spec (length subject) q) as [Hq|Hq]; [done|].
  unfold Cookie.exec_at.
  destruct (drop q subject) as [|c rest] eqn:Hd.
  { apply IH; lia. }
  assert (Hrest : length rest = length subject - S q).
  { apply (f_equal length) in Hd. rewrite length_drop in Hd. simpl in Hd. lia. }
  assert (Hskip : forall s, length (skip_spaces s) <= length s).
  { induction s as [|x s IHs]; simpl; [lia|]. destruct (is_space x); simpl; lia. }
  pose proof (Hskip rest) as Hs.
  destruct ((c =? semicolon)%N && (length (skip_spaces rest) <? length rest)) eqn:E1.
  { apply andb_true_iff in E1 as [_ E1]. apply Nat.ltb_lt in E1.
    f_equal. apply IH; lia. }
  match goal with |- context [if ?b then _ else _] => destruct b end.
  - f_equal. apply IH; lia.
  - apply IH; lia.
Qed.

(** A subject without white space has no match of the pattern, with or
    without a [;] in it: it is one fragment. *)
Lemma split_without_space subject :
  Forall (fun c => is_space c = false) subject ->
  Cookie.split subject = [subject].
Proof.
  intros Hns. unfold Cookie.split.
  assert (Hloop : forall fuel p q,
    Cookie.split_loop fuel subject p q = [drop p subject]).
  { induction fuel as [|fuel IH]; intros p q; [done|]. simpl.
    destruct (length subject <=? q); [done|].
    replace (Cookie.exec_at subject q) with (@None nat); [apply IH|].
    unfold Cookie.exec_at.
    destruct (drop q subject) as [|c rest] eqn:Hd; [done|].
    assert (Hcr : Forall (fun c => is_space c = false) (c :: rest)).
    { rewrite <- Hd. by apply Forall_drop. }
    apply Forall_cons in Hcr as [Hc Hrest].
    assert (Hskip : skip_spaces rest = rest).
    { destruct Hrest as [|d rest' Hd' _]; [done|]. simpl. by rewrite Hd'. }
    rewrite Hskip, Nat.ltb_irrefl, andb_false_r, Hc, andb_false_r.
    reflexivity. }
  apply Hloop.
Qed.

Lemma decode_ascii_plain s : percent ∉ s -> Cookie.decode_ascii s = s.
Proof.
  induction s as [|c s IH]; [done|].
  rewrite not_elem_of_cons. intros [Hc Hs]. simpl.
  destruct (N.eqb_spec c percent); [congruence|]. by rewrite IH.
Qed.

Lemma decode_ascii_escape :
  Cookie.decode_ascii (js "a%3Db%20") = js "a=b ".
Proof. reflexivity. Qed.

Ltac plain_string := apply (bool_decide_unpack _); vm_compute; exact I.

Ltac eval_slices :=
  repeat match goal with
    | |- context [slice_to ?n ?s] =>
        let v := eval vm_compute in (slice_to n s) in
        change (slice_to n s) with v
    | |- context [slice_from ?n ?s] =>
        let v := eval vm_compute in (slice_from n s) in
        change (slice_from n s) with v
    end.

(** With a decoder that keeps strings free of [%], the header
    ["a=1; b=2"] gives both cookies, and the fragments ["=1"] and ["a="]
    give none. *)
Lemma parse_examples decode :
  (forall s, percent ∉ s -> decode s = s) ->
  Cookie.parse decode (Some (js "a=1; b=2"))
    = <[js "b" := js "2"]> {[js "a" := js "1"]}
  ∧ Cookie.parse decode (Some (js "=1")) = ∅
  ∧ Cookie.parse decode (Some (js "a=")) = ∅
  ∧ Cookie.parse decode (Some (js "a=1; b")) = {[js "a" := js "1"]}
  ∧ Cookie.parse decode None = ∅.
Proof.
  intros Hplain. unfold Cookie.parse.
  repeat apply conj.
  - change (Cookie.split _) with [js "a=1"; js "b=2"]. simpl.
    rewrite !cookie_step_stores by (vm_compute; split; congruence).
    eval_slices. rewrite !Hplain by plain_string. reflexivity.
  - change (Cookie.split _) with [js "=1"]. simpl.
    apply cookie_step_skips. right; left. by eexists.
  - change (Cookie.split _) with [js "a="]. simpl.
    apply cookie_step_skips. right; right. reflexivity.
  - change (Cookie.split _) with [js "a=1"; js "b"]. simpl.
    rewrite (cookie_step_skips _ _ (js "b")) by (left; plain_string).
    rewrite cookie_step_stores by (vm_compute; split; congruence).
    eval_slices. rewrite !Hplain by plain_string. reflexivity.
  - reflexivity.
Qed.

(** C1. The pattern of the middleware needs white space after a [;]: the
    header ["a=1;b"] is one fragment, and the middleware stores the cookie
    [a] with the value ["1;b"], not ["1"]. *)
Theorem parse_semicolon_without_space decode :
  (forall s, percent ∉ s -> decode s = s) ->
  Cookie.split (js "a=1;b") = [js "a=1;b"]
  ∧ Cookie.parse decode (Some (js "a=1;b")) = {[js "a" := js "1;b"]}
  ∧ Cookie.parse decode (Some (js "a=1;b")) ≠ {[js "a" := js "1"]}.
Proof.
  intros Hplain.
  assert (Hparse : Cookie.parse decode (Some (js "a=1;b"))
                   = {[js "a" := js "1;b"]}).
  { unfold Cookie.parse.
    change (Cookie.split _) with [js "a=1;b"]. simpl.
    rewrite cookie_step_stores by (vm_compute; split; congruence).
    eval_slices. rewrite !Hplain by plain_string. reflexivity. }
  split; [reflexivity|]. split; [exact Hparse|].
  rewrite Hparse. intros Heq.
  apply (f_equal (.!! js "a")) in Heq.
  rewrite !lookup_singleton_eq in Heq. discriminate Heq.
Qed.

Lemma parse_semicolon_without_space_witness :
  Cookie.split (js "a=1;b") = [js "a=1;b"]
  ∧ Cookie.parse Cookie.decode_ascii (Some (js "a=1;b"))
    = {[js "a" := js "1;b"]}
  ∧ Cookie.parse Cookie.decode_ascii (Some (js "a=1;b"))
    ≠ {[js "a" := js "1"]}.
Proof.
  exact (parse_semicolon_without_space Cookie.decode_ascii decode_ascii_plain).
Defined.

(** ** Routes *)

Section RegistryFacts.
Import Registry.
Context {Mod : Type}.
Variable require : jsstring -> Mod.
Variable path_join : jsstring -> jsstring -> jsstring.

Local Abbreviation is_module := (fun file => endsWith (js ".js") file = true).
Local Abbreviation discover := (getModulesDefinitions require path_join).

Lemma endsWith_js_split f :
  endsWith (js ".js") f = true ->
  3 <= length f ∧ drop (length f - 3) f = js ".js"
  ∧ f = take (length f - 3) f ++ js ".js".
Proof.
  unfold endsWith. intros H. apply andb_true_iff in H as [Hlen Hdrop].
  apply Nat.leb_le in Hlen. apply bool_decide_eq_true in Hdrop.
  change (length (js ".js")) with 3 in *.
  split; [done|]. split; [done|].
  rewrite <- Hdrop. by rewrite take_drop.
Qed.

Lemma strip_js_module f :
  endsWith (js ".js") f = true -> strip_js f = take (length f - 3) f.
Proof.
  intros H. destruct (endsWith_js_split f H) as (Hlen & Hdrop & _).
  apply Nat.leb_le in Hlen.
  unfold strip_js. rewrite Hdrop.
  change (js ".js") with [dot; 106%N; 115%N]. cbv iota beta.
  rewrite Hlen. reflexivity.
Qed.

Lemma underscores_to_slashes_rule s :
  underscores_to_slashes s
  = (fun c => if bool_decide (c = underscore) then slash else c) <$> s.
Proof.
  unfold underscores_to_slashes. apply list_fmap_ext. intros _ c _.
  destruct (N.eqb_spec c underscore); by case_bool_decide.
Qed.

Lemma parseRoute_default sr f :
  endsWith (js ".js") f = true -> sr ≫= (.!! f) = None ->
  parseRoute sr f = route_by_rule f.
Proof.
  intros Hf Hsr. unfold parseRoute, route_by_rule. rewrite Hsr.
  by rewrite (strip_js_module f Hf), underscores_to_slashes_rule.
Qed.

Lemma discover_routes files modulesPath sr doRequire :
  route <$> discover files modulesPath sr doRequire
  = parseRoute sr <$> filter is_module (reverse files).
Proof.
  unfold getModulesDefinitions. rewrite <- list_fmap_compose.
  by apply list_fmap_ext.
Qed.

(** C4. A file name in the override table has the route of the table,
    as it stands; a file name that ends in [.js] and is not in the table
    has the route of the rule: the suffix cut off, every underscore a
    separator, a separator in front. Discovery gives each module this
    route. [user_detail.js] has the route [/user/detail], and
    [daily_signin.js] the route [/daily_signin] of the table, where the
    rule would give [/daily/signin]. *)
Theorem route_derivation table fileName :
  (∀ r, table !! fileName = Some r -> parseRoute (Some table) fileName = r)
  ∧ (endsWith (js ".js") fileName = true -> table !! fileName = None ->
     parseRoute (Some table) fileName = route_by_rule fileName)
  ∧ (endsWith (js ".js") fileName = true ->
     parseRoute None fileName = route_by_rule fileName)
  ∧ (∀ files modulesPath sr doRequire,
       route <$> discover files modulesPath sr doRequire
       = parseRoute sr <$> filter is_module (reverse files))
  ∧ parseRoute (Some special) (js "user_detail.js") = js "/user/detail"
  ∧ parseRoute (Some special) (js "daily_signin.js") = js "/daily_signin"
  ∧ route_by_rule (js "daily_signin.js") = js "/daily/signin".
Proof.
  repeat apply conj; try reflexivity.
  - intros r Hr. unfold parseRoute. simpl. by rewrite Hr.
  - intros Hf Ht. by apply parseRoute_default.
  - intros Hf. by apply parseRoute_default.
  - apply discover_routes.
Qed.

(** The rule gives different routes to different module files, when no
    file name has a separator in it. *)
Lemma replace_underscores_inj (s t : jsstring) :
  slash ∉ s -> slash ∉ t ->
  (fun c => if bool_decide (c = underscore) then slash else c) <$> s
  = (fun c => if bool_decide (c = underscore) then slash else c) <$> t ->
  s = t.
Proof.
  revert t. induction s as [|a s IH]; intros [|b t]; try done.
  rewrite !not_elem_of_cons. intros [Ha Hs] [Hb Ht]. simpl.
  intros Heq. injection Heq as Hab Hst.
  f_equal; [|by apply IH].
  repeat case_bool_decide; congruence.
Qed.

Lemma route_by_rule_inj f g :
  endsWith (js ".js") f = true -> endsWith (js ".js") g = true ->
  slash ∉ f -> slash ∉ g ->
  route_by_rule f = route_by_rule g -> f = g.
Proof.
  intros Hf Hg Hsf Hsg. unfold route_by_rule.
  change (length (js ".js")) with 3. intros Heq.
  injection Heq as Heq.
  destruct (endsWith_js_split f Hf) as (_ & _ & Ef).
  destruct (endsWith_js_split g Hg) as (_ & _ & Eg).
  apply replace_underscores_inj in Heq.
  - rewrite Ef, Eg. by rewrite Heq.
  - intros H. apply Hsf. rewrite Ef. apply elem_of_app. by left.
  - intros H. apply Hsg. rewrite Eg. apply elem_of_app. by left.
Qed.

Lemma route_by_rule_no_underscore f : underscore ∉ route_by_rule f.
Proof.
  unfold route_by_rule. rewrite not_elem_of_cons. split; [done|].
  rewrite list_elem_of_fmap. intros (c & Hc & _).
  case_bool_decide; [discriminate Hc | congruence].
Qed.

(** Routes are distinct under a table whose routes are distinct among
    themselves and each have an underscore, and under no table. *)
Lemma discover_routes_NoDup sr files modulesPath doRequire :
  (∀ f g r, sr ≫= (.!! f) = Some r -> sr ≫= (.!! g) = Some r -> f = g) ->
  (∀ f r, sr ≫= (.!! f) = Some r -> underscore ∈ r) ->
  NoDup files -> Forall (fun f => slash ∉ f) files ->
  NoDup (route <$> discover files modulesPath sr doRequire).
Proof.
  intros Hinj Hsep Hnd Hslash. rewrite discover_routes.
  apply NoDup_fmap_2_strong.
  2: { apply NoDup_filter. by rewrite reverse_Permutation. }
  intros f g Hf Hg.
  apply list_elem_of_filter in Hf as [Hf Hfin].
  apply list_elem_of_filter in Hg as [Hg Hgin].
  rewrite elem_of_reverse in Hfin. rewrite elem_of_reverse in Hgin.
  rewrite Forall_forall in Hslash.
  destruct (sr ≫= (.!! f)) as [rf|] eqn:Ef, (sr ≫= (.!! g)) as [rg|] eqn:Eg.
  - unfold parseRoute. rewrite Ef, Eg. intros <-. by eapply Hinj.
  - rewrite (parseRoute_default sr g Hg Eg).
    unfold parseRoute at 1. rewrite Ef. intros ->.
    destruct (route_by_rule_no_underscore g). by eapply Hsep.
  - rewrite (parseRoute_default sr f Hf Ef).
    unfold parseRoute at 1. rewrite Eg. intros <-.
    destruct (route_by_rule_no_underscore f). by eapply Hsep.
  - rewrite (parseRoute_default sr f Hf Ef).
    rewrite (parseRoute_default sr g Hg Eg).
    apply route_by_rule_inj; [done | done | by apply Hslash | by apply Hslash].
Qed.

Lemma special_table :
  (∀ f g r, special !! f = Some r -> special !! g = Some r -> f = g)
  ∧ (∀ f r, special !! f = Some r -> underscore ∈ r).
Proof.
  assert (Hcases : ∀ f r, special !! f = Some r ->
    (f = js "daily_signin.js" ∧ r = js "/daily_signin")
    ∨ (f = js "fm_trash.js" ∧ r = js "/fm_trash")
    ∨ (f = js "personal_fm.js" ∧ r = js "/personal_fm")).
  { intros f r. unfold special.
    rewrite !lookup_insert. repeat case_decide; subst;
      rewrite ?lookup_empty; intros Hr; try discriminate Hr;
      injection Hr as <-; naive_solver. }
  split.
  - intros f g r Hf Hg.
    apply Hcases in Hf as [[-> ->]|[[-> ->]|[-> ->]]];
      apply Hcases in Hg as [[-> Hr]|[[-> Hr]|[-> Hr]]];
      first [reflexivity | discriminate Hr].
  - intros f r Hf.
    apply Hcases in Hf as [[_ ->]|[[_ ->]|[_ ->]]];
      apply (bool_decide_unpack _); vm_compute; exact I.
Qed.

(** C8, as the code has it. Discovery keeps one binding for each directory
    entry that ends in [.js], in the reverse order of the listing, each
    with the identifier, the route and the module of its own file, and the
    registration loop registers each of them in that order, under its
    route and with its own module: no binding is dropped or replaced.
    With the table [special], and with no table, entries with distinct
    names and no separator in a name have distinct routes. *)
Theorem discovery_reversed_and_distinct files modulesPath doRequire sr :
  NoDup files -> Forall (fun f => slash ∉ f) files ->
  discover files modulesPath sr doRequire
    = (fun file =>
         {| identifier := identifier_of file;
            route := parseRoute sr file;
            module := if doRequire
                      then inl (require (path_join modulesPath file))
                      else inr (path_join modulesPath file) |})
      <$> filter is_module (reverse files)
  ∧ register (discover files modulesPath sr doRequire)
    = (fun file =>
         (parseRoute sr file,
          if doRequire
          then inl (require (path_join modulesPath file))
          else inr (path_join modulesPath file)))
      <$> filter is_module (reverse files)
  ∧ route <$> discover files modulesPath sr doRequire
    = parseRoute sr <$> filter is_module (reverse files)
  ∧ identifier <$> discover files modulesPath sr doRequire
    = identifier_of <$> filter is_module (reverse files)
  ∧ (register (discover files modulesPath sr doRequire)).*1
    = parseRoute sr <$> filter is_module (reverse files)
  ∧ length (register (discover files modulesPath sr doRequire))
    = length (filter is_module files)
  ∧ NoDup (route <$> discover files modulesPath (Some special) doRequire)
  ∧ NoDup (route <$> discover files modulesPath None doRequire).
Proof.
  intros Hnd Hslash. repeat apply conj.
  - reflexivity.
  - unfold register, getModulesDefinitions. rewrite <- list_fmap_compose.
    by apply list_fmap_ext.
  - apply discover_routes.
  - unfold getModulesDefinitions. rewrite <- list_fmap_compose.
    by apply list_fmap_ext.
  - unfold register.
    rewrite <- list_fmap_compose, <- (discover_routes _ modulesPath _ doRequire).
    by apply list_fmap_ext.
  - unfold register, getModulesDefinitions. rewrite !length_fmap.
    rewrite filter_reverse. apply length_reverse.
  - destruct special_table as [Hinj Hsep].
    by apply discover_routes_NoDup.
  - by apply discover_routes_NoDup.
Qed.

End RegistryFacts.

(** The table of the example in the comment of [getModulesDefinitions]
    gives [album_new.js] the route of the module [album_create.js]: the
    registry has both bindings, under one route. *)
Lemma discovery_duplicate_route :
  ¬ NoDup (Registry.route
           <$> Registry.getModulesDefinitions Sample.require Sample.path_join
                 Sample.album_listing (js "./module")
                 (Some Sample.album_table) true).
Proof.
  assert (Heq : Registry.route
           <$> Registry.getModulesDefinitions Sample.require Sample.path_join
                 Sample.album_listing (js "./module")
                 (Some Sample.album_table) true
           = [js "/album/create"; js "/album/create"]) by reflexivity.
  rewrite Heq. intros H. apply NoDup_cons in H as [H _].
  apply H. left.
Qed.

Lemma discovery_reversed_and_distinct_witness :
  Registry.route
    <$> Registry.getModulesDefinitions Sample.require Sample.path_join
          Sample.listing (js "./module") (Some Registry.special) true
  = [js "/user/detail"; js "/user"; js "/daily_signin"]
  ∧ NoDup (Registry.route
           <$> Registry.getModulesDefinitions Sample.require
                 Sample.path_join Sample.listing (js "./module")
                 (Some Registry.special) true)
  ∧ Registry.register
      (Registry.getModulesDefinitions Sample.require Sample.path_join
         Sample.album_listing (js "./module") (Some Sample.album_table) true)
    = [(js "/album/create", inl (js "./module/album_new.js"));
       (js "/album/create", inl (js "./module/album_create.js"))].
Proof.
  assert (Hnd : NoDup Sample.listing).
  { apply (bool_decide_unpack _). vm_compute. exact I. }
  assert (Hslash : Forall (fun f => slash ∉ f) Sample.listing).
  { apply (bool_decide_unpack _). vm_compute. exact I. }
  assert (Hnd' : NoDup Sample.album_listing).
  { apply (bool_decide_unpack _). vm_compute. exact I. }
  assert (Hslash' : Forall (fun f => slash ∉ f) Sample.album_listing).
  { apply (bool_decide_unpack _). vm_compute. exact I. }
  destruct (discovery_reversed_and_distinct Sample.require
              Sample.path_join Sample.listing (js "./module") true
              (Some Registry.special) Hnd Hslash)
    as (_ & _ & Hroutes & _ & _ & _ & Hdistinct & _).
  destruct (discovery_reversed_and_distinct Sample.require
              Sample.path_join Sample.album_listing (js "./module") true
              (Some Sample.album_table) Hnd' Hslash')
    as (_ & Hregister & _).
  exact (conj Hroutes (conj Hdistinct Hregister)).
Defined.

(** ** The outcome of a module *)

Section DispatcherFacts.
Import Dispatcher.
Variable decode : jsstring -> jsstring.
Variable cookieToJson : jsstring -> jsval.
Variable ToString : jsval -> jsstring.
Context {Resp : Type}.
Variable request : list jsval -> Resp.
Variable module : jsobj -> (list jsval -> Resp) -> outcome.

Local Abbreviation handle := (route_handler decode cookieToJson ToString request module).
Local Abbreviation called := (call_module request module).
Local Abbreviation prepared := (cookie_fields_to_json decode cookieToJson).

Lemma handle_rejected req r :
  called (prepared req) = Rejected r -> (handle req).2 = on_failure r.
Proof. unfold route_handler. simpl. by intros ->. Qed.

Lemma handle_resolved req r :
  called (prepared req) = Resolved r ->
  (handle req).2 = on_success ToString (prepared req) r.
Proof. unfold route_handler. simpl. by intros ->. Qed.

(** The values that count as no body. *)
Lemma falsy_bodies v :
  truthy v = false <->
  v = JUndefined ∨ v = JNull ∨ v = JBool false ∨ v = JStr []
  ∨ ∃ x, v = JNum x ∧ (PrimFloat.is_zero x || PrimFloat.is_nan x) = true.
Proof.
  split.
  - destruct v as [| |b|x|s|l|o]; simpl; intros H; try discriminate; auto.
    + destruct b; [discriminate | auto].
    + do 4 right. exists x. split; [done|].
      destruct (is_zero x), (is_nan x); done.
    + destruct s; [auto | discriminate].
  - intros [->|[->|[->|[->|(x & -> & H)]]]]; try reflexivity.
    simpl. destruct (is_zero x), (is_nan x); done.
Qed.

Lemma not_found_fields :
  get_prop not_found (js "code") = JNum 404
  ∧ get_prop not_found (js "data") = JNull
  ∧ get_prop not_found (js "msg") = JStr (js "Not Found").
Proof. repeat apply conj; reflexivity. Qed.

(** Only an object has a [code] that equals ['301']. *)
Lemma code_301_object v :
  loose_eq_301 (get_prop v (js "code")) = true ->
  ∃ o c, v = JObj o ∧ o !! js "code" = Some c ∧ loose_eq_301 c = true.
Proof.
  destruct v as [| |b|x|s|l|o]; simpl; try discriminate.
  destruct (o !! js "code") as [c|] eqn:E; simpl; [|discriminate].
  intros H. by exists o, c.
Qed.

(** C2. A failure whose body is absent or falsy is answered with the status
    404 and the fixed body [{code: 404, data: null, msg: 'Not Found'}],
    whatever its own status, and with nothing else: no [Set-Cookie] is
    appended and the failure's body is not sent. *)
Theorem failure_without_body req r :
  called (prepared req) = Rejected r ->
  truthy (body r) = false ->
  on_failure r = [Status (JNum 404); Send not_found]
  ∧ (handle req).2 = [Status (JNum 404); Send not_found]
  ∧ get_prop not_found (js "code") = JNum 404
  ∧ get_prop not_found (js "data") = JNull
  ∧ get_prop not_found (js "msg") = JStr (js "Not Found").
Proof.
  intros Hcall Hbody.
  assert (H : on_failure r = [Status (JNum 404); Send not_found]).
  { unfold on_failure. by rewrite Hbody. }
  split; [exact H|]. split; [by rewrite (handle_rejected _ _ Hcall)|].
  exact not_found_fields.
Qed.

(** C3. A failure with a body whose [code] loosely equals ['301'] is
    answered with its own status and with its body, an object, in which
    [msg] is the login message and every other property, [code] among
    them, is as it was; any other failure with a body is answered with its
    own status and body as they are. The string ['301'] and the number 301
    both equal ['301']. *)
Theorem failure_with_body req r :
  called (prepared req) = Rejected r ->
  truthy (body r) = true ->
  (loose_eq_301 (get_prop (body r) (js "code")) = true ->
   ∃ o c, body r = JObj o
     ∧ o !! js "code" = Some c
     ∧ (handle req).2
       = [Append (js "Set-Cookie") (cookie r); Status (status r);
          Send (JObj (<[js "msg" := JStr login_required]> o))]
     ∧ <[js "msg" := JStr login_required]> o !! js "code" = Some c
     ∧ ∀ k, k ≠ js "msg" ->
         <[js "msg" := JStr login_required]> o !! k = o !! k)
  ∧ (loose_eq_301 (get_prop (body r) (js "code")) = false ->
     (handle req).2
     = [Append (js "Set-Cookie") (cookie r); Status (status r);
        Send (body r)])
  ∧ loose_eq_301 (JStr (js "301")) = true
  ∧ loose_eq_301 (JNum 301) = true.
Proof.
  intros Hcall Hbody. rewrite (handle_rejected _ _ Hcall).
  unfold on_failure. rewrite Hbody. simpl negb. cbv iota.
  repeat apply conj; try reflexivity.
  - intros H. rewrite H.
    destruct (code_301_object _ H) as (o & c & Ho & Hc & _).
    exists o, c. rewrite Ho. simpl.
    repeat apply conj; try done.
    + rewrite lookup_insert_ne; [done | by vm_compute].
    + intros k Hk. by rewrite lookup_insert_ne.
  - by intros ->.
Qed.

(** C10. A failure with a body always has its [cookie] appended as
    [Set-Cookie], as it is and whatever the protocol of the request, also
    when it is [undefined]. A success appends [Set-Cookie] only for an
    array with an element, each element extended under https and the array
    as it is otherwise. *)
Theorem failure_cookie_unconditional req r :
  (called (prepared req) = Rejected r -> truthy (body r) = true ->
   ∃ sent, (handle req).2
           = [Append (js "Set-Cookie") (cookie r); Status (status r);
              Send sent])
  ∧ (called (prepared req) = Resolved r ->
     (handle req).2
     = match cookie r with
       | JArr (c :: l) =>
           if bool_decide (protocol req = js "https")
           then [Append (js "Set-Cookie")
                   (JArr (add_same_site ToString <$> c :: l));
                 Status (status r); Send (body r)]
           else [Append (js "Set-Cookie") (cookie r);
                 Status (status r); Send (body r)]
       | _ => [Status (status r); Send (body r)]
       end)
  ∧ (∀ s, add_same_site ToString (JStr s)
          = JStr (s ++ js "; SameSite=None; Secure")).
Proof.
  repeat apply conj; try reflexivity.
  - intros Hcall Hbody. rewrite (handle_rejected _ _ Hcall).
    unfold on_failure. rewrite Hbody. simpl. by eexists.
  - intros Hcall. rewrite (handle_resolved _ _ Hcall).
    unfold on_success. simpl.
    destruct (cookie r) as [| |b|x|s|[|c l]|o]; try reflexivity.
    by destruct (bool_decide _).
Qed.

(** ** The parameters of a module *)

Lemma option_union_first {A} (x y : option A) :
  x ∪ y = match x with Some v => Some v | None => y end.
Proof. by destruct x, y. Qed.

Lemma assign_source_lookup t s k :
  k ≠ proto_key ->
  own (assign_source t s) !! k
  = match own_props s !! k with
    | Some v => Some v
    | None => own t !! k
    end.
Proof.
  intros Hk. unfold assign_source.
  assert (H : (delete proto_key (own_props s) ∪ own t) !! k
              = match own_props s !! k with
                | Some v => Some v
                | None => own t !! k
                end).
  { rewrite lookup_union, lookup_delete_ne by done.
    apply option_union_first. }
  destruct (own_props s !! proto_key) as [v|]; [|exact H].
  unfold set_proto_key. cbn [own proto].
  match goal with |- context [if ?b then _ else _] => destruct b end.
  - cbn [own]. by rewrite lookup_insert_ne.
  - destruct v; exact H.
Qed.

(** A source without the name [__proto__] leaves it, and the prototype,
    as they are. *)
Lemma assign_source_plain t s :
  own_props s !! proto_key = None ->
  own (assign_source t s) !! proto_key = own t !! proto_key
  ∧ proto (assign_source t s) = proto t.
Proof.
  intros H. unfold assign_source. rewrite H. cbn [own proto].
  split; [|done].
  by rewrite lookup_union, lookup_delete_eq, (left_id None _).
Qed.

(** Below the accessor, no source gives the target an own [__proto__]. *)
Lemma assign_source_setter t s :
  own t !! proto_key = None -> reaches_setter (proto t) = true ->
  own (assign_source t s) !! proto_key = None.
Proof.
  intros Hown Hreach. unfold assign_source.
  assert (H : (delete proto_key (own_props s) ∪ own t) !! proto_key = None).
  { by rewrite lookup_union, lookup_delete_eq, (left_id None _). }
  destruct (own_props s !! proto_key) as [v|]; [|exact H].
  unfold set_proto_key. cbn [own proto]. rewrite H, Hreach.
  rewrite bool_decide_false by (by intros [? [=]]).
  cbn [orb negb]. by destruct v.
Qed.

Lemma Object_assign_target_snoc target sources s :
  Object_assign_target target (sources ++ [s])
  = assign_source (Object_assign_target target sources) s.
Proof. unfold Object_assign_target. by rewrite foldl_app. Qed.

(** A later source wins over every earlier one and over the target, for
    every name but [__proto__]. *)
Lemma Object_assign_lookup_last target sources s k :
  k ≠ proto_key ->
  Object_assign target (sources ++ [s]) !! k
  = match own_props s !! k with
    | Some v => Some v
    | None => Object_assign target sources !! k
    end.
Proof.
  intros Hk. unfold Object_assign.
  by rewrite Object_assign_target_snoc, assign_source_lookup.
Qed.

Lemma cookie_is_not_proto_key : js "cookie" ≠ proto_key.
Proof. by vm_compute. Qed.

Lemma parameters_lookup req k :
  k ≠ proto_key ->
  parameters req !! k
  = match own_props (files req) !! k with
    | Some v => Some v
    | None =>
        match body_fields req !! k with
        | Some v => Some v
        | None =>
            match query req !! k with
            | Some v => Some v
            | None =>
                if bool_decide (k = js "cookie")
                then Some (JObj (JStr <$> cookies req))
                else None
            end
        end
    end.
Proof.
  intros Hk. unfold parameters, Object_assign, Object_assign_target.
  cbn [foldl]. rewrite !assign_source_lookup by done.
  cbn [own own_props].
  destruct (own_props (files req) !! k) as [v|]; [done|].
  destruct (body_fields req !! k) as [v|]; [done|].
  destruct (query req !! k) as [v|]; [done|].
  case_bool_decide as Hc.
  - subst k. by rewrite lookup_singleton_eq.
  - by rewrite lookup_singleton_ne, lookup_empty.
Qed.

(** The name [__proto__] is an own key of the parameters only when two of
    the sources hold it: the first one that holds it reaches the accessor
    and only sets the prototype. *)
Lemma parameters_proto_key req :
  is_Some (parameters req !! proto_key) ->
  (is_Some (query req !! proto_key) ∧ is_Some (body_fields req !! proto_key))
  ∨ (is_Some (query req !! proto_key)
     ∧ is_Some (own_props (files req) !! proto_key))
  ∨ (is_Some (body_fields req !! proto_key)
     ∧ is_Some (own_props (files req) !! proto_key)).
Proof.
  unfold parameters, Object_assign, Object_assign_target. cbn [foldl].
  set (t0 := {| own := ∅; proto := ObjectPrototype |}).
  set (t1 := assign_source t0
               (JObj {[js "cookie" := JObj (JStr <$> cookies req)]})).
  assert (H1 : own t1 !! proto_key = None ∧ proto t1 = ObjectPrototype).
  { destruct (assign_source_plain t0
                (JObj {[js "cookie" := JObj (JStr <$> cookies req)]}))
      as [Ho Hp]; [by apply lookup_singleton_ne, cookie_is_not_proto_key|].
    split; [unfold t1; by rewrite Ho | exact Hp]. }
  destruct H1 as [Ho1 Hp1].
  set (t2 := assign_source t1 (JObj (query req))).
  set (t3 := assign_source t2 (JObj (body_fields req))).
  assert (Ho2 : own t2 !! proto_key = None).
  { apply assign_source_setter; [done | by rewrite Hp1]. }
  destruct (query req !! proto_key) as [vq|] eqn:Eq;
    destruct (body_fields req !! proto_key) as [vb|] eqn:Eb;
    destruct (own_props (files req) !! proto_key) as [vf|] eqn:Ef;
    intros Hsome; try (left; split; by eexists);
    try (right; left; split; by eexists);
    try (right; right; split; by eexists); exfalso.
  - (* the query only *)
    destruct (assign_source_plain t2 (JObj (body_fields req)) Eb) as [Ho3 _].
    destruct (assign_source_plain t3 (files req) Ef) as [Ho4 _].
    fold t3 in Ho3, Ho4. rewrite Ho4, Ho3, Ho2 in Hsome.
    by destruct Hsome.
  - (* the body only *)
    destruct (assign_source_plain t1 (JObj (query req)) Eq) as [_ Hp2].
    fold t2 in Hp2.
    assert (Ho3 : own t3 !! proto_key = None).
    { apply assign_source_setter; [done | by rewrite Hp2, Hp1]. }
    destruct (assign_source_plain t3 (files req) Ef) as [Ho4 _].
    rewrite Ho4, Ho3 in Hsome. by destruct Hsome.
  - (* the files only *)
    destruct (assign_source_plain t1 (JObj (query req)) Eq) as [_ Hp2].
    destruct (assign_source_plain t2 (JObj (body_fields req)) Eb)
      as [Ho3 Hp3].
    fold t2 in Hp2. fold t3 in Ho3, Hp3.
    rewrite (assign_source_setter t3 (files req)) in Hsome;
      [by destruct Hsome | by rewrite Ho3 | by rewrite Hp3, Hp2, Hp1].
  - (* none *)
    destruct (assign_source_plain t1 (JObj (query req)) Eq) as [_ Hp2].
    destruct (assign_source_plain t2 (JObj (body_fields req)) Eb)
      as [Ho3 Hp3].
    fold t2 in Hp2. fold t3 in Ho3, Hp3.
    rewrite (assign_source_setter t3 (files req)) in Hsome;
      [by destruct Hsome | by rewrite Ho3 | by rewrite Hp3, Hp2, Hp1].
Qed.

(** C5, as the code has it. The parameters are the merge of
    [{cookie: req.cookies}], the query, the body and the files, in this
    order, for every key but [__proto__]: such a key is read from the
    last of these sources that has it. With [a] in all four, the files'
    value is the one in the parameters, and [cookie] holds the parsed
    cookies. The key [__proto__] of a source is written through the
    accessor of the prototype and is not merged: it is a key of the
    parameters only when two of the sources hold it. *)
Theorem parameters_merge_order req k :
  (k ≠ proto_key ->
   parameters req !! k
   = match own_props (files req) !! k with
     | Some v => Some v
     | None =>
         match body_fields req !! k with
         | Some v => Some v
         | None =>
             match query req !! k with
             | Some v => Some v
             | None =>
                 if bool_decide (k = js "cookie")
                 then Some (JObj (JStr <$> cookies req))
                 else None
             end
         end
     end)
  ∧ parameters Sample.req_a !! js "a" = Some (JStr (js "4"))
  ∧ parameters Sample.req_a !! js "cookie"
    = Some (JObj {[js "a" := JStr (js "1")]})
  ∧ call_module request module req
    = module (parameters req) (wrapper request (ip req))
  ∧ (is_Some (parameters req !! proto_key) ->
     (is_Some (query req !! proto_key)
      ∧ is_Some (body_fields req !! proto_key))
     ∨ (is_Some (query req !! proto_key)
        ∧ is_Some (own_props (files req) !! proto_key))
     ∨ (is_Some (body_fields req !! proto_key)
        ∧ is_Some (own_props (files req) !! proto_key))).
Proof.
  repeat apply conj.
  - apply parameters_lookup.
  - reflexivity.
  - reflexivity.
  - reflexivity.
  - apply parameters_proto_key.
Qed.

(** C6. The query and the body are treated alike and each on its own: a
    [cookie] field that is a string is replaced by [cookieToJson] of its
    decoded value, every other field stays, and a [cookie] field that is
    no string, or none, leaves the source as it is. The request keeps the
    replaced fields, and the module is called on the parameters merged
    from them. *)
Theorem cookie_fields_replaced req :
  let req' := (handle req).1 in
  query req'
  = match query req !! js "cookie" with
    | Some (JStr s) =>
        <[js "cookie" := cookieToJson (decode s)]> (query req)
    | _ => query req
    end
  ∧ body_fields req'
    = match body_fields req !! js "cookie" with
      | Some (JStr s) =>
          <[js "cookie" := cookieToJson (decode s)]> (body_fields req)
      | _ => body_fields req
      end
  ∧ cookies req' = cookies req
  ∧ files req' = files req
  ∧ ip req' = ip req
  ∧ protocol req' = protocol req
  ∧ (handle req).2
    = match module (parameters req') (wrapper request (ip req')) with
      | Resolved r => on_success ToString req' r
      | Rejected r => on_failure r
      end.
Proof.
  assert (Hitem : forall item : jsobj,
    cookie_to_json decode cookieToJson item
    = match item !! js "cookie" with
      | Some (JStr s) => <[js "cookie" := cookieToJson (decode s)]> item
      | _ => item
      end).
  { intros item. unfold cookie_to_json.
    destruct (item !! js "cookie") as [[| |b|x|s|l|o]|]; reflexivity. }
  simpl. rewrite <- !Hitem. repeat apply conj; reflexivity.
Qed.

(** ** The outbound-call wrapper *)

Lemma set_fourth_length obj v : length (set_fourth obj v) = length obj `max` 4.
Proof.
  unfold set_fourth. destruct (Nat.leb_spec (length obj) 3).
  - rewrite !length_app, length_replicate. simpl. lia.
  - rewrite length_insert. lia.
Qed.

Lemma set_fourth_slot obj v : set_fourth obj v !! 3 = Some v.
Proof.
  unfold set_fourth. destruct (Nat.leb_spec (length obj) 3).
  - rewrite lookup_app_r by lia.
    rewrite lookup_app_r by (rewrite length_replicate; lia).
    rewrite length_replicate.
    by replace (3 - length obj - (3 - length obj)) with 0 by lia.
  - by apply list_lookup_insert_eq.
Qed.

Lemma set_fourth_other obj v i :
  i ≠ 3 -> i < length obj -> set_fourth obj v !! i = obj !! i.
Proof.
  intros Hi Hlen. unfold set_fourth.
  destruct (Nat.leb_spec (length obj) 3).
  - by rewrite lookup_app_l.
  - by rewrite list_lookup_insert_ne.
Qed.

Lemma set_fourth_gap obj v i :
  length obj <= i < 3 -> set_fourth obj v !! i = Some JUndefined.
Proof.
  intros Hi. unfold set_fourth.
  destruct (Nat.leb_spec (length obj) 3); [|lia].
  rewrite lookup_app_r by lia.
  rewrite lookup_app_l by (rewrite length_replicate; lia).
  apply lookup_replicate. split; [done | lia].
Qed.

Lemma normalize_ip_mapped rest : normalize_ip (js "::ffff:" ++ rest) = rest.
Proof. reflexivity. Qed.

Lemma normalize_ip_plain ip :
  substr0 7 ip ≠ js "::ffff:" -> normalize_ip ip = ip.
Proof. intros H. unfold normalize_ip. by rewrite bool_decide_false. Qed.

(** C7. The wrapper calls the outbound client with the arguments of the
    module, except for the fourth: that one is an object with the own
    properties of the fourth argument given, if any, and with [ip] set to
    the client address, from which a leading [::ffff:] is cut off. The
    other arguments are passed as they are, and missing ones before the
    fourth are [undefined]. *)
Theorem wrapper_injects_ip req_ip params :
  let args := wrapper_args req_ip params in
  wrapper request req_ip params = request args
  ∧ args !! 3
    = Some (JObj (<[js "ip" := JStr (normalize_ip req_ip)]>
                  (own_props (default JUndefined (params !! 3)))))
  ∧ (∀ o, params !! 3 = Some (JObj o) ->
       args !! 3 = Some (JObj (<[js "ip" := JStr (normalize_ip req_ip)]> o)))
  ∧ (length params <= 3 ->
       args !! 3 = Some (JObj {[js "ip" := JStr (normalize_ip req_ip)]}))
  ∧ length args = length params `max` 4
  ∧ (∀ i, i ≠ 3 -> i < length params -> args !! i = params !! i)
  ∧ (∀ i, length params <= i < 3 -> args !! i = Some JUndefined)
  ∧ (∀ rest, normalize_ip (js "::ffff:" ++ rest) = rest)
  ∧ (∀ ip, substr0 7 ip ≠ js "::ffff:" -> normalize_ip ip = ip)
  ∧ normalize_ip (js "::ffff:127.0.0.1") = js "127.0.0.1"
  ∧ normalize_ip (js "192.168.1.20") = js "192.168.1.20".
Proof.
  simpl. unfold wrapper_args.
  repeat apply conj; try reflexivity.
  - apply set_fourth_slot.
  - intros o Ho. by rewrite set_fourth_slot, Ho.
  - intros Hlen. rewrite set_fourth_slot.
    by rewrite (lookup_ge_None_2 params 3) by lia.
  - apply set_fourth_length.
  - intros i. apply set_fourth_other.
  - intros i. apply set_fourth_gap.
  - apply normalize_ip_plain.
Qed.

End DispatcherFacts.

(** The JSON body [{"__proto__": {"admin": true}, "a": "3"}] has the key
    [__proto__], and the parameters do not: the merge of the sources
    would have it. *)
Lemma parameters_proto_key_not_merged :
  ¬ (∀ k,
       Dispatcher.parameters Sample.req_proto !! k
       = match own_props (Dispatcher.files Sample.req_proto) !! k with
         | Some v => Some v
         | None =>
             match Dispatcher.body_fields Sample.req_proto !! k with
             | Some v => Some v
             | None =>
                 match Dispatcher.query Sample.req_proto !! k with
                 | Some v => Some v
                 | None =>
                     if bool_decide (k = js "cookie")
                     then Some (JObj (JStr
                                      <$> Dispatcher.cookies Sample.req_proto))
                     else None
                 end
             end
         end).
Proof.
  intros H. specialize (H proto_key). vm_compute in H. discriminate H.
Qed.

Lemma parameters_proto_key_example :
  Dispatcher.parameters Sample.req_proto !! proto_key = None
  ∧ Dispatcher.parameters Sample.req_proto !! js "a" = Some (JStr (js "3"))
  ∧ Dispatcher.parameters_prototype Sample.req_proto
    = ValuePrototype (JObj {[js "admin" := JBool true]}).
Proof. repeat apply conj; reflexivity. Qed.

Lemma parameters_merge_order_witness :
  Dispatcher.parameters Sample.req_proto !! js "a" = Some (JStr (js "3")).
Proof.
  apply (proj1 (parameters_merge_order Sample.request Sample.echo
                  Sample.req_proto (js "a"))).
  by vm_compute.
Defined.

Lemma failure_without_body_witness :
  let handle :=
    Dispatcher.route_handler Sample.decode Sample.cookieToJson
      Sample.ToString Sample.request (Sample.rejecting Sample.no_body) in
  Dispatcher.on_failure Sample.no_body
    = [Dispatcher.Status (JNum 404); Dispatcher.Send Dispatcher.not_found]
  ∧ (handle Sample.req).2
    = [Dispatcher.Status (JNum 404); Dispatcher.Send Dispatcher.not_found]
  ∧ get_prop Dispatcher.not_found (js "code") = JNum 404
  ∧ get_prop Dispatcher.not_found (js "data") = JNull
  ∧ get_prop Dispatcher.not_found (js "msg") = JStr (js "Not Found").
Proof.
  exact (failure_without_body Sample.decode Sample.cookieToJson
           Sample.ToString Sample.request (Sample.rejecting Sample.no_body)
           Sample.req Sample.no_body eq_refl eq_refl).
Defined.

Lemma failure_with_body_witness :
  let handle :=
    Dispatcher.route_handler Sample.decode Sample.cookieToJson
      Sample.ToString Sample.request (Sample.rejecting Sample.need_login) in
  (handle Sample.req).2
  = [Dispatcher.Append (js "Set-Cookie") JUndefined;
     Dispatcher.Status (JNum 301);
     Dispatcher.Send
       (JObj (<[js "msg" := JStr Dispatcher.login_required]>
              (<[js "code" := JNum 301]> {[js "msg" := JStr (js "x")]})))].
Proof.
  destruct (failure_with_body Sample.decode Sample.cookieToJson
              Sample.ToString Sample.request
              (Sample.rejecting Sample.need_login)
              Sample.req Sample.need_login eq_refl eq_refl)
    as [Hlogin _].
  destruct (Hlogin eq_refl) as (o & c & Ho & _ & Hsent & _).
  injection Ho as <-. exact Hsent.
Defined.

Lemma failure_cookie_unconditional_witness :
  (∃ sent,
     (Dispatcher.route_handler Sample.decode Sample.cookieToJson
        Sample.ToString Sample.request (Sample.rejecting Sample.need_login)
        Sample.req).2
     = [Dispatcher.Append (js "Set-Cookie") JUndefined;
        Dispatcher.Status (JNum 301); Dispatcher.Send sent])
  ∧ (Dispatcher.route_handler Sample.decode Sample.cookieToJson
       Sample.ToString Sample.request (Sample.resolving Sample.ok)
       Sample.req).2
    = [Dispatcher.Append (js "Set-Cookie")
         (JArr [JStr (js "MUSIC_U=abc; Path=/; SameSite=None; Secure")]);
       Dispatcher.Status (JNum 200);
       Dispatcher.Send (JObj {[js "code" := JNum 200]})].
Proof.
  split.
  - exact (proj1 (failure_cookie_unconditional Sample.decode
                    Sample.cookieToJson Sample.ToString Sample.request
                    (Sample.rejecting Sample.need_login)
                    Sample.req Sample.need_login) eq_refl eq_refl).
  - exact (proj1 (proj2 (failure_cookie_unconditional Sample.decode
                    Sample.cookieToJson Sample.ToString Sample.request
                    (Sample.resolving Sample.ok)
                    Sample.req Sample.ok)) eq_refl).
Defined.

Lemma cookie_fields_replaced_example :
  let req' :=
    (Dispatcher.route_handler Sample.decode Sample.cookieToJson
       Sample.ToString Sample.request Sample.echo Sample.req).1 in
  Dispatcher.query req' !! js "cookie"
    = Some (JObj {[js "MUSIC_U" := JStr (js "abc")]})
  ∧ Dispatcher.body_fields req' !! js "cookie" = Some (JNum 7)
  ∧ Dispatcher.parameters req' !! js "cookie" = Some (JNum 7)
  ∧ Dispatcher.parameters req' !! js "a" = Some (JStr (js "4")).
Proof. repeat apply conj; reflexivity. Qed.

(** ** The response cache *)

Section CacheFacts.
Import Dispatcher Cache.
Context {Req : Type}.
Variable key : Req -> jsstring.
Variable handler : Req -> list res_call.

Local Abbreviation serve := (Cache.serve key handler).
Local Abbreviation run := (Cache.run key handler).
Local Abbreviation state := (@Cache.state Req).

Local Abbreviation through := (Cache.through key handler).

Lemma serve_hit now req st e :
  store st !! key req = Some e -> live now e = true ->
  serve now req st = (value e, st).
Proof. unfold Cache.serve. by intros -> ->. Qed.

Lemma serve_miss now req st :
  (∀ e, store st !! key req = Some e -> live now e = false) ->
  serve now req st = (handler req, through now req st).
Proof.
  unfold Cache.serve. intros H.
  destruct (store st !! key req) as [e|]; [|done].
  by rewrite (H e eq_refl).
Qed.

Lemma serve_cases now req st :
  (∃ e, store st !! key req = Some e ∧ live now e = true
        ∧ serve now req st = (value e, st))
  ∨ ((∀ e, store st !! key req = Some e -> live now e = false)
     ∧ serve now req st = (handler req, through now req st)).
Proof.
  destruct (store st !! key req) as [e|] eqn:E.
  - destruct (live now e) eqn:L.
    + left. exists e. by rewrite (serve_hit now req st e).
    + right. split; [by intros e' [= <-]|].
      apply serve_miss. rewrite E. by intros e' [= <-].
  - right. split; [done|]. apply serve_miss. by rewrite E.
Qed.

(** A step never touches an entry that has not expired. *)
Lemma serve_keeps_live now req st k e :
  store st !! k = Some e -> live now e = true ->
  store (serve now req st).2 !! k = Some e.
Proof.
  intros Hk Hlive.
  destruct (serve_cases now req st) as [(e' & _ & _ & ->)|[Hmiss ->]];
    [done|].
  simpl. destruct (toggle (handler req)); [|done].
  rewrite lookup_insert_ne; [done|].
  intros Heq. rewrite Heq in Hmiss. specialize (Hmiss e Hk). congruence.
Qed.

(** A step touches no entry of another key. *)
Lemma serve_other_key now req st k :
  key req ≠ k -> store (serve now req st).2 !! k = store st !! k.
Proof.
  intros Hne.
  destruct (serve_cases now req st) as [(e' & _ & _ & ->)|[_ ->]]; [done|].
  simpl. destruct (toggle (handler req)); [|done].
  by rewrite lookup_insert_ne.
Qed.

Lemma run_cons r reqs st :
  run (r :: reqs) st = run reqs (serve r.1 r.2 st).2.
Proof. reflexivity. Qed.

Lemma run_keeps_live reqs : forall st k e,
  store st !! k = Some e ->
  Forall (fun r => live r.1 e = true) reqs ->
  store (run reqs st) !! k = Some e.
Proof.
  induction reqs as [|r reqs IH]; intros st k e Hk Hall; [done|].
  rewrite run_cons. apply Forall_cons in Hall as [Hr Hall].
  apply IH; [|done]. by apply serve_keeps_live.
Qed.

Lemma run_other_keys reqs : forall st k,
  Forall (fun r => key r.2 ≠ k) reqs ->
  store (run reqs st) !! k = store st !! k.
Proof.
  induction reqs as [|r reqs IH]; intros st k Hall; [done|].
  rewrite run_cons. apply Forall_cons in Hall as [Hr Hall].
  rewrite IH by done. by apply serve_other_key.
Qed.

(** Every stored response was accepted by [toggle]. *)
Lemma serve_stores_accepted now req st :
  (∀ k e, store st !! k = Some e -> toggle (value e) = true) ->
  ∀ k e, store (serve now req st).2 !! k = Some e -> toggle (value e) = true.
Proof.
  intros Hinv k e.
  destruct (serve_cases now req st) as [(e' & _ & _ & ->)|[_ ->]];
    [apply Hinv|].
  simpl. destruct (toggle (handler req)) eqn:T; [|apply Hinv].
  rewrite lookup_insert. case_decide; [|apply Hinv].
  by intros [= <-].
Qed.

Lemma run_stores_accepted reqs : forall st,
  (∀ k e, store st !! k = Some e -> toggle (value e) = true) ->
  ∀ k e, store (run reqs st) !! k = Some e -> toggle (value e) = true.
Proof.
  induction reqs as [|r reqs IH]; intros st Hinv; [done|].
  rewrite run_cons. apply IH. by apply serve_stores_accepted.
Qed.

Lemma serve_rejected_not_stored now req st :
  toggle (handler req) = false -> store (serve now req st).2 = store st.
Proof.
  intros T.
  destruct (serve_cases now req st) as [(e' & _ & _ & ->)|[_ ->]]; [done|].
  simpl. by rewrite T.
Qed.

Lemma toggle_status calls :
  toggle calls = true
  <-> ∃ x, statusCode calls = JNum x ∧ PrimFloat.eqb x 200 = true.
Proof.
  unfold toggle, strict_eq_num.
  destruct (statusCode calls) as [| |b|x|s|l|o];
    split; try discriminate; try (by intros (x' & [=] & _)).
  - intros H. by exists x.
  - by intros (x' & [= <-] & H).
Qed.

(** C9. A response whose status is exactly 200 is stored under the key of
    its request, to expire 120000 ms later. Until then every request with
    that key is answered with the stored response and the handler is not
    invoked, whatever other requests came in between; a request with that
    key at or after that time invokes the handler again. A step leaves
    every entry that has not expired as it is, and a response with
    another status is never stored. *)
Theorem cache_two_minutes :
  (∀ st t1 req1,
     (∀ e, store st !! key req1 = Some e -> live t1 e = false) ->
     toggle (handler req1) = true ->
     let st1 := (serve t1 req1 st).2 in
     (serve t1 req1 st).1 = handler req1
     ∧ invoked st1 = invoked st ++ [req1]
     ∧ store st1 !! key req1
       = Some {| value := handler req1; expires := (t1 + 120000)%N |}
     ∧ (∀ mid t2 req2,
          key req2 = key req1 ->
          Forall (fun r => (r.1 <= t2)%N) mid -> (t2 < t1 + 120000)%N ->
          serve t2 req2 (run mid st1) = (handler req1, run mid st1))
     ∧ (∀ mid t2 req2,
          key req2 = key req1 ->
          Forall (fun r => key r.2 ≠ key req1) mid ->
          (t1 + 120000 <= t2)%N ->
          serve t2 req2 (run mid st1)
          = (handler req2, through t2 req2 (run mid st1))
          ∧ invoked (serve t2 req2 (run mid st1)).2
            = invoked (run mid st1) ++ [req2]))
  ∧ (∀ st now req k e,
       store st !! k = Some e -> (now < expires e)%N ->
       store (serve now req st).2 !! k = Some e)
  ∧ (∀ st now req,
       toggle (handler req) = false -> store (serve now req st).2 = store st)
  ∧ (∀ reqs k e,
       store (run reqs Cache.initial) !! k = Some e ->
       ∃ x, statusCode (value e) = JNum x ∧ PrimFloat.eqb x 200 = true)
  ∧ toggle [Status (JNum 404); Send not_found] = false.
Proof.
  repeat apply conj; try reflexivity.
  - intros st t1 req1 Hmiss Hok.
    rewrite (serve_miss t1 req1 st Hmiss). cbn [fst snd].
    set (st1 := through t1 req1 st).
    assert (Hstored : store st1 !! key req1
                      = Some {| value := handler req1;
                                expires := (t1 + 120000)%N |}).
    { subst st1. unfold Cache.through. simpl. rewrite Hok.
      apply lookup_insert_eq. }
    repeat apply conj; try done.
    + intros mid t2 req2 Hkey Hmid Ht2.
      assert (Hkept : store (run mid st1) !! key req2
                      = Some {| value := handler req1;
                                expires := (t1 + 120000)%N |}).
      { rewrite Hkey. apply run_keeps_live; [exact Hstored|].
        eapply Forall_impl; [exact Hmid|].
        intros r Hr. cbv beta in Hr.
        unfold live. cbn [expires]. apply N.ltb_lt. lia. }
      rewrite (serve_hit t2 req2 _ _ Hkept); [done|].
      unfold live. cbn [expires]. by apply N.ltb_lt.
    + intros mid t2 req2 Hkey Hmid Ht2.
      assert (Hgo : serve t2 req2 (run mid st1)
                    = (handler req2, through t2 req2 (run mid st1))).
      { apply serve_miss. intros e.
        rewrite Hkey, (run_other_keys mid st1 (key req1) Hmid).
        rewrite Hstored. intros [= <-].
        unfold live. cbn [expires]. apply N.ltb_ge. lia. }
      by rewrite Hgo.
  - intros st now req k e Hk Hlive. apply serve_keeps_live; [done|].
    by apply N.ltb_lt.
  - intros st now req. apply serve_rejected_not_stored.
  - intros reqs k e Hk. apply toggle_status.
    by apply (run_stores_accepted reqs Cache.initial) with k.
Qed.

End CacheFacts.

Lemma cache_two_minutes_witness :
  let st1 := (Cache.serve Sample.url_key Sample.page 0 (js "/a")
                Cache.initial).2 in
  Cache.serve Sample.url_key Sample.page 60000 (js "/a") st1
    = (Sample.page (js "/a"), st1)
  ∧ Cache.invoked
      (Cache.serve Sample.url_key Sample.page 120000 (js "/a") st1).2
    = [js "/a"; js "/a"].
Proof.
  destruct (proj1 (cache_two_minutes Sample.url_key Sample.page)
              Cache.initial 0%N (js "/a"))
    as (_ & _ & _ & Hhit & Hagain).
  - intros e He. discriminate He.
  - reflexivity.
  - split.
    + apply (Hhit [] 60000%N (js "/a") eq_refl); [constructor | reflexivity].
    + apply (Hagain [] 120000%N (js "/a") eq_refl); [constructor|].
      intros Hlt. discriminate Hlt.
Defined.

(** * Further properties *)

(** ** White space and [trim] *)

Lemma skip_spaces_split s :
  ∃ pre, s = pre ++ skip_spaces s ∧ Forall (fun c => is_space c = true) pre.
Proof.
  induction s as [|c s (pre & Hs & Hpre)]; [by exists []|].
  simpl. destruct (is_space c) eqn:E.
  - exists (c :: pre). split; [by rewrite <- app_comm_cons, <- Hs|].
    by constructor.
  - by exists [].
Qed.

Lemma skip_spaces_head s :
  from_option is_space false (head (skip_spaces s)) = false.
Proof.
  induction s as [|c s IH]; [done|]. simpl.
  destruct (is_space c) eqn:E; [done|]. simpl. exact E.
Qed.

Lemma skip_spaces_id s :
  from_option is_space false (head s) = false -> skip_spaces s = s.
Proof. destruct s as [|c s]; [done|]. simpl. by intros ->. Qed.

Lemma skip_spaces_all s :
  Forall (fun c => is_space c = true) s -> skip_spaces s = [].
Proof. induction 1 as [|c s Hc _ IH]; [done|]. simpl. by rewrite Hc. Qed.

Lemma trim_alt s : trim s = reverse (skip_spaces (reverse (skip_spaces s))).
Proof. unfold trim, reverse. by rewrite !rev_alt. Qed.

(** A string that neither starts nor ends with white space is its own
    [trim]. *)
Lemma trim_fixed s :
  from_option is_space false (head s) = false ->
  from_option is_space false (last s) = false ->
  trim s = s.
Proof.
  intros Hh Hl. rewrite trim_alt, (skip_spaces_id s Hh).
  rewrite skip_spaces_id by by rewrite head_reverse.
  apply reverse_involutive.
Qed.

Lemma trim_ends s :
  from_option is_space false (head (trim s)) = false
  ∧ from_option is_space false (last (trim s)) = false.
Proof.
  rewrite trim_alt.
  set (u := skip_spaces s).
  destruct (skip_spaces_split (reverse u)) as (pre & Hu & Hpre).
  set (w := skip_spaces (reverse u)) in *.
  split.
  - rewrite head_reverse.
    destruct w as [|c w] using rev_ind; [done|]. clear IHw.
    assert (Hlast : last (reverse u) = Some c).
    { by rewrite Hu, app_assoc, last_snoc. }
    rewrite <- head_reverse, reverse_involutive in Hlast.
    rewrite last_snoc. simpl.
    pose proof (skip_spaces_head s) as Hs. fold u in Hs.
    by rewrite Hlast in Hs.
  - rewrite <- head_reverse, reverse_involutive.
    apply skip_spaces_head.
Qed.

Lemma trim_idemp s : trim (trim s) = trim s.
Proof. destruct (trim_ends s). by apply trim_fixed. Qed.

Lemma trim_no_space s :
  Forall (fun c => is_space c = false) s -> trim s = s.
Proof.
  intros Hs. apply trim_fixed.
  - destruct Hs; [done | by simpl].
  - destruct (last s) as [c|] eqn:E; [|done]. simpl.
    apply last_Some in E as [l' ->]. apply Forall_app in Hs as [_ Hc].
    by inversion Hc.
Qed.

Lemma trim_all_space s :
  Forall (fun c => is_space c = true) s -> trim s = [].
Proof. intros Hs. rewrite trim_alt. by rewrite (skip_spaces_all s Hs). Qed.

(** ** Splitting a header that was joined with ["; "] *)

Lemma skip_spaces_length s : length (skip_spaces s) <= length s.
Proof.
  induction s as [|c s IH]; simpl; [lia|]. destruct (is_space c); simpl; lia.
Qed.

Lemma exec_at_bounds subject q e :
  Cookie.exec_at subject q = Some e -> q < e ∧ e <= length subject.
Proof.
  unfold Cookie.exec_at.
  destruct (drop q subject) as [|c rest] eqn:Hd; [done|].
  assert (Hlen : length subject = q + S (length rest)).
  { apply (f_equal length) in Hd. rewrite length_drop in Hd. simpl in Hd. lia. }
  pose proof (skip_spaces_length rest).
  destruct ((c =? semicolon)%N && (length (skip_spaces rest) <? length rest))
    eqn:E1.
  - apply andb_true_iff in E1 as [_ E1]. apply Nat.ltb_lt in E1.
    intros [= <-]. lia.
  - match goal with |- context [if ?b then _ else _] => destruct b end;
      [|done].
    intros [= <-]. lia.
Qed.

Lemma split_loop_step fuel subject p q :
  length subject - q < fuel ->
  Cookie.split_loop fuel subject p q
  = if length subject <=? q then [drop p subject]
    else match Cookie.exec_at subject q with
         | None => Cookie.split_loop fuel subject p (S q)
         | Some e =>
             take (q - p) (drop p subject)
               :: Cookie.split_loop fuel subject e e
         end.
Proof.
  intros Hfuel. destruct fuel as [|fuel]; [lia|].
  change (Cookie.split_loop (S fuel) subject p q)
    with (if length subject <=? q then [drop p subject]
          else match Cookie.exec_at subject q with
               | None => Cookie.split_loop fuel subject p (S q)
               | Some e =>
                   take (q - p) (drop p subject)
                     :: Cookie.split_loop fuel subject e e
               end).
  destruct (Nat.leb_spec (length subject) q) as [Hq|Hq]; [done|].
  destruct (Cookie.exec_at subject q) as [e|] eqn:E.
  - apply exec_at_bounds in E. f_equal. apply split_loop_fuel; lia.
  - apply split_loop_fuel; lia.
Qed.

Lemma exec_at_inside subject q c rest :
  drop q subject = c :: rest ->
  is_space c = false ->
  from_option is_space false (head rest) = false ->
  Cookie.exec_at subject q = None.
Proof.
  intros Hd Hc Hrest. unfold Cookie.exec_at. rewrite Hd.
  rewrite (skip_spaces_id rest Hrest), Nat.ltb_irrefl, andb_false_r, Hc.
  by rewrite andb_false_r.
Qed.

Lemma exec_at_separator subject pre rest :
  subject = pre ++ semicolon :: 32%N :: rest ->
  from_option is_space false (head rest) = false ->
  Cookie.exec_at subject (length pre) = Some (length pre + 2).
Proof.
  intros -> Hrest. unfold Cookie.exec_at. rewrite drop_app_length.
  change (skip_spaces (32%N :: rest)) with (skip_spaces rest).
  rewrite (skip_spaces_id rest Hrest), N.eqb_refl.
  replace (length rest <? length (32%N :: rest)) with true
    by (symmetry; apply Nat.ltb_lt; simpl; lia).
  simpl. f_equal. rewrite length_app. simpl. lia.
Qed.

(** Inside a fragment without white space no match starts. *)
Lemma split_loop_scan subject pre tail fuel : forall todo seen,
  subject = pre ++ seen ++ todo ++ tail ->
  Forall (fun c => is_space c = false) todo ->
  from_option is_space false (head tail) = false ->
  length subject - length (pre ++ seen) < fuel ->
  Cookie.split_loop fuel subject (length pre) (length (pre ++ seen))
  = Cookie.split_loop fuel subject (length pre)
      (length (pre ++ seen ++ todo)).
Proof.
  induction todo as [|c todo IH]; intros seen Hsub Hns Htail Hfuel.
  { by rewrite app_nil_r. }
  apply Forall_cons in Hns as [Hc Hns].
  rewrite split_loop_step by done.
  assert (Hlen : length subject
                 = length (pre ++ seen) + S (length (todo ++ tail))).
  { rewrite Hsub, !length_app. simpl. rewrite ?length_app. lia. }
  destruct (Nat.leb_spec (length subject) (length (pre ++ seen))); [lia|].
  rewrite (exec_at_inside subject _ c (todo ++ tail)); [| |done|].
  - replace (S (length (pre ++ seen))) with (length (pre ++ (seen ++ [c])))
      by (rewrite !length_app; simpl; lia).
    rewrite IH; [| |done|done|].
    + by rewrite <- (app_assoc seen [c] todo).
    + by rewrite Hsub, <- !app_assoc.
    + rewrite !length_app in *. simpl in *. lia.
  - by rewrite Hsub, app_assoc, drop_app_length.
  - destruct Hns as [|d todo Hd _]; [done | by simpl].
Qed.

Lemma join_head frags :
  Forall (Forall (fun c => is_space c = false)) frags ->
  from_option is_space false (head (CookieHeader.join frags)) = false.
Proof.
  intros Hall. destruct Hall as [|f frags Hf Hall]; [done|].
  destruct frags as [|g fs]; simpl.
  - destruct Hf; [done | by simpl].
  - destruct Hf; [done | by simpl].
Qed.

Lemma split_loop_join : forall frags pre fuel,
  frags ≠ [] ->
  Forall (Forall (fun c => is_space c = false)) frags ->
  length (CookieHeader.join frags) < fuel ->
  Cookie.split_loop fuel (pre ++ CookieHeader.join frags)
    (length pre) (length pre)
  = frags.
Proof.
  induction frags as [|f frags IH]; intros pre fuel Hne Hall Hfuel; [done|].
  apply Forall_cons in Hall as [Hf Hall].
  destruct frags as [|g fs].
  - simpl in *.
    pose proof (split_loop_scan (pre ++ f) pre [] fuel f []) as Hscan.
    rewrite !app_nil_r in Hscan. simpl in Hscan.
    rewrite Hscan; [|done|done|done|rewrite length_app; lia].
    rewrite split_loop_step by lia.
    rewrite Nat.leb_refl. by rewrite drop_app_length.
  - change (CookieHeader.join (f :: g :: fs))
      with (f ++ semicolon :: 32%N :: CookieHeader.join (g :: fs)) in *.
    assert (Hhead : from_option is_space false
                      (head (CookieHeader.join (g :: fs))) = false)
      by by apply join_head.
    specialize (IH (pre ++ f ++ [semicolon; 32%N]) fuel).
    remember (CookieHeader.join (g :: fs)) as rest eqn:Hrest.
    rewrite length_app in Hfuel. cbn [length] in Hfuel.
    set (subject := pre ++ f ++ semicolon :: 32%N :: rest).
    pose proof (split_loop_scan subject pre (semicolon :: 32%N :: rest)
                  fuel f []) as Hscan.
    rewrite !app_nil_r in Hscan. simpl in Hscan.
    rewrite Hscan; [|done|done|done|].
    2: { subst subject. rewrite !length_app in *. simpl in *.
         clear -Hfuel. lia. }
    assert (Hlen : length subject = length (pre ++ f) + S (S (length rest))).
    { subst subject. rewrite !length_app. simpl. lia. }
    rewrite split_loop_step by lia.
    destruct (Nat.leb_spec (length subject) (length (pre ++ f))); [lia|].
    rewrite (exec_at_separator subject (pre ++ f) rest);
      [|by subst subject; rewrite <- app_assoc | done].
    f_equal.
    + rewrite length_app, Nat.add_comm, Nat.add_sub.
      subst subject. by rewrite drop_app_length, take_app_length.
    + replace (length (pre ++ f) + 2)
        with (length (pre ++ f ++ [semicolon; 32%N]))
        by (rewrite !length_app; simpl; lia).
      replace subject with ((pre ++ f ++ [semicolon; 32%N]) ++ rest)
        by (subst subject; by rewrite <- !app_assoc).
      apply IH; [done | done | lia].
Qed.

(** ** The cookies of a header *)

Lemma indexOf_first c k v :
  c ∉ k -> indexOf c (k ++ c :: v) = Z.of_nat (length k).
Proof.
  induction k as [|d k IH]; intros Hk.
  - apply indexOf_head.
  - apply not_elem_of_cons in Hk as [Hd Hk]. simpl.
    destruct (N.eqb_spec d c); [congruence|].
    rewrite (IH Hk).
    destruct (Z.ltb_spec (Z.of_nat (length k)) 0); lia.
Qed.

Lemma cookie_step_name_value decode cookies k v :
  equals_sign ∉ k ->
  Cookie.cookie_step decode cookies (k ++ equals_sign :: v)
  = if bool_decide (k = [] ∨ v = []) then cookies
    else Cookie.set_cookie (trim (decode k)) (trim (decode v)) cookies.
Proof.
  intros Hk.
  pose proof (indexOf_first equals_sign k v Hk) as Hi.
  assert (Hlen : length (k ++ equals_sign :: v) = length k + S (length v)).
  { rewrite length_app. reflexivity. }
  destruct k as [|c k].
  { rewrite bool_decide_true by auto.
    apply cookie_step_skips. right; left. by eexists. }
  destruct v as [|d v].
  { rewrite bool_decide_true by auto.
    apply cookie_step_skips. right; right. rewrite Hi, Hlen. simpl. lia. }
  rewrite bool_decide_false by (by intros [|]).
  rewrite cookie_step_stores by (rewrite Hi, Hlen; simpl; lia).
  rewrite Hi. unfold slice_to, slice_from.
  replace (Z.to_nat (Z.of_nat (length (c :: k)) + 1))
    with (length (c :: k) + 1) by lia.
  rewrite Nat2Z.id, take_app_length, <- drop_drop, drop_app_length.
  reflexivity.
Qed.

Lemma foldl_cookie_step_trimmed decode frags : forall cookies,
  (∀ k v, cookies !! k = Some v -> trim k = k ∧ trim v = v) ->
  ∀ k v, foldl (Cookie.cookie_step decode) cookies frags !! k = Some v ->
         trim k = k ∧ trim v = v.
Proof.
  induction frags as [|frag frags IH]; intros cookies Hinv; [done|].
  simpl. apply IH. intros k v. unfold Cookie.cookie_step, Cookie.set_cookie.
  match goal with |- context [if ?b then _ else _] => destruct b end;
    [apply Hinv|].
  case_bool_decide; [apply Hinv|].
  rewrite lookup_insert. case_decide as Hk; [|apply Hinv].
  intros [= <-]. subst k. by rewrite !trim_idemp.
Qed.

Lemma foldl_insert_reverse (kvs : list (jsstring * jsstring)) :
  forall m : gmap jsstring jsstring,
  foldl (fun m kv => <[kv.1 := kv.2]> m) m kvs
  = foldr (fun kv m => <[kv.1 := kv.2]> m) m (reverse kvs).
Proof.
  induction kvs as [|kv kvs IH]; intros m; [done|].
  simpl. by rewrite IH, reverse_cons, foldr_app.
Qed.

Lemma name_value_no_space kv :
  Forall (fun c => is_space c = false) kv.1 ->
  Forall (fun c => is_space c = false) kv.2 ->
  Forall (fun c => is_space c = false) (CookieHeader.name_value kv).
Proof.
  intros Hk Hv. unfold CookieHeader.name_value.
  apply Forall_app. split; [done|]. by constructor.
Qed.

(** X1. A header made of fragments without white space, joined with
    ["; "], is split into these fragments again, whatever else they
    hold: the middleware then runs its step on each of them in order. *)
Theorem split_joined_header decode frags :
  frags ≠ [] ->
  Forall (Forall (fun c => is_space c = false)) frags ->
  Cookie.split (CookieHeader.join frags) = frags
  ∧ Cookie.parse decode (Some (CookieHeader.join frags))
    = foldl (Cookie.cookie_step decode) ∅ frags.
Proof.
  intros Hne Hall.
  assert (Hsplit : Cookie.split (CookieHeader.join frags) = frags).
  { unfold Cookie.split.
    apply (split_loop_join frags [] _ Hne Hall). lia. }
  split; [exact Hsplit|].
  unfold Cookie.parse. simpl. by rewrite Hsplit.
Qed.

(** X2. Every name and every value that the middleware stores is trimmed:
    none starts or ends with white space. *)
Theorem parsed_cookies_trimmed decode header k v :
  Cookie.parse decode header !! k = Some v ->
  trim k = k ∧ trim v = v
  ∧ from_option is_space false (head k) = false
  ∧ from_option is_space false (last k) = false
  ∧ from_option is_space false (head v) = false
  ∧ from_option is_space false (last v) = false.
Proof.
  intros Hkv.
  destruct (foldl_cookie_step_trimmed decode
              (Cookie.split (default [] header)) ∅) with k v
    as [Hk Hv]; [by intros ? ? ?%lookup_empty_Some | exact Hkv |].
  repeat apply conj; try done.
  - rewrite <- Hk. apply trim_ends.
  - rewrite <- Hk. apply trim_ends.
  - rewrite <- Hv. apply trim_ends.
  - rewrite <- Hv. apply trim_ends.
Qed.

Lemma foldl_set_cookie (kvs : list (jsstring * jsstring)) :
  forall m : gmap jsstring jsstring,
  foldl (fun m kv => Cookie.set_cookie kv.1 kv.2 m) m kvs
  = foldl (fun m kv => <[kv.1 := kv.2]> m) m
      (filter (fun kv => kv.1 ≠ proto_key) kvs).
Proof.
  induction kvs as [|kv kvs IH]; intros m; [done|].
  cbn [foldl]. rewrite IH. unfold Cookie.set_cookie.
  case_bool_decide as Hk.
  - by rewrite filter_cons_False by (intros Hne; by apply Hne).
  - by rewrite filter_cons_True by done.
Qed.

(** X3. With a decoder that keeps strings free of [%], the header that
    joins the pairs [name=value] with ["; "] gives back the pairs, the
    last one of a name that comes more than once, and none for the name
    [__proto__], which is never stored: names and values are not empty
    and hold no white space and no [%], and a name holds no [=]. A value
    may hold [=] and [;]. *)
Theorem parse_joined_pairs decode (kvs : list (jsstring * jsstring)) :
  (∀ s, percent ∉ s -> decode s = s) ->
  Forall (fun kv =>
    kv.1 ≠ [] ∧ kv.2 ≠ [] ∧ (equals_sign ∉ kv.1)
    ∧ (percent ∉ kv.1) ∧ (percent ∉ kv.2)
    ∧ Forall (fun c => is_space c = false) (kv.1)
    ∧ Forall (fun c => is_space c = false) (kv.2)) kvs ->
  Cookie.parse decode
    (Some (CookieHeader.join (CookieHeader.name_value <$> kvs)))
  = list_to_map (reverse (filter (fun kv => kv.1 ≠ proto_key) kvs))
  ∧ Cookie.parse decode
      (Some (CookieHeader.join (CookieHeader.name_value <$> kvs)))
    !! proto_key = None.
Proof.
  intros Hplain Hwf.
  assert (Hfold : forall m,
    foldl (Cookie.cookie_step decode) m (CookieHeader.name_value <$> kvs)
    = foldl (fun m kv => Cookie.set_cookie kv.1 kv.2 m) m kvs).
  { induction Hwf as [|kv kvs (Hk & Hv & He & Hpk & Hpv & Hsk & Hsv) _ IH];
      intros m; [done|].
    rewrite fmap_cons. cbn [foldl]. rewrite <- IH. f_equal.
    unfold CookieHeader.name_value.
    rewrite (cookie_step_name_value decode m _ _ He).
    rewrite bool_decide_false by (by intros [|]).
    by rewrite !Hplain, !trim_no_space. }
  assert (Hparse : Cookie.parse decode
      (Some (CookieHeader.join (CookieHeader.name_value <$> kvs)))
    = list_to_map (reverse (filter (fun kv => kv.1 ≠ proto_key) kvs))).
  { destruct kvs as [|kv kvs]; [reflexivity|].
    unfold Cookie.parse. cbn [default].
    replace (Cookie.split _) with (CookieHeader.name_value <$> kv :: kvs).
    - rewrite Hfold, foldl_set_cookie. apply foldl_insert_reverse.
    - symmetry. unfold Cookie.split.
      apply (split_loop_join _ []); [done| |exact (Nat.lt_succ_diag_r _)].
      apply Forall_fmap. eapply Forall_impl; [exact Hwf|].
      intros kv' (_ & _ & _ & _ & _ & Hsk & Hsv).
      by apply name_value_no_space. }
  split; [exact Hparse|].
  rewrite Hparse. apply not_elem_of_list_to_map_1.
  rewrite list_elem_of_fmap. intros ([k v] & Hk & Hin).
  rewrite elem_of_reverse in Hin.
  apply list_elem_of_filter in Hin as [Hne _]. simpl in *. congruence.
Qed.

(** X4. A fragment is cut at its first [=]: with no [=] in the name, the
    fragment [name=value] is skipped when the name or the value is empty
    or the decoded, trimmed name is [__proto__], and otherwise stored
    under the decoded, trimmed name with the decoded, trimmed rest,
    further [=] included. A name of white space only is stored as the
    empty name. *)
Theorem fragment_cut_at_first_equals decode cookies k v :
  equals_sign ∉ k ->
  Cookie.cookie_step decode cookies (k ++ equals_sign :: v)
  = (if bool_decide (k = [] ∨ v = [] ∨ trim (decode k) = proto_key)
     then cookies
     else <[trim (decode k) := trim (decode v)]> cookies)
  ∧ (k ≠ [] -> v ≠ [] -> decode k = k ->
     Forall (fun c => is_space c = true) k ->
     Cookie.cookie_step decode cookies (k ++ equals_sign :: v)
     = <[[] := trim (decode v)]> cookies).
Proof.
  intros Hk.
  rewrite (cookie_step_name_value decode cookies k v Hk).
  unfold Cookie.set_cookie. split.
  - repeat case_bool_decide; try done; exfalso; tauto.
  - intros Hne Hv Hdec Hsp.
    rewrite bool_decide_false by (by intros [|]).
    rewrite Hdec, (trim_all_space k Hsp).
    by rewrite bool_decide_false.
Qed.

Lemma split_joined_header_witness :
  Cookie.split
    (CookieHeader.join [js "a=1"; js "b=2;c=3"; js "flag"; js "d=%20"])
  = [js "a=1"; js "b=2;c=3"; js "flag"; js "d=%20"]
  ∧ Cookie.parse Cookie.decode_ascii
      (Some (CookieHeader.join
               [js "a=1"; js "b=2;c=3"; js "flag"; js "d=%20"]))
    = foldl (Cookie.cookie_step Cookie.decode_ascii) ∅
        [js "a=1"; js "b=2;c=3"; js "flag"; js "d=%20"].
Proof.
  apply (split_joined_header Cookie.decode_ascii); [discriminate|].
  apply (bool_decide_unpack _). vm_compute. exact I.
Defined.

Lemma parsed_cookies_trimmed_witness :
  trim (js "a") = js "a" ∧ trim (js "1") = js "1"
  ∧ from_option is_space false (head (js "a")) = false
  ∧ from_option is_space false (last (js "a")) = false
  ∧ from_option is_space false (head (js "1")) = false
  ∧ from_option is_space false (last (js "1")) = false.
Proof.
  apply (parsed_cookies_trimmed Cookie.decode_ascii
           (Some (js " a = 1 ; b=2")) (js "a") (js "1")).
  vm_compute. reflexivity.
Defined.

Lemma parse_joined_pairs_witness :
  Cookie.parse Cookie.decode_ascii
    (Some (CookieHeader.join
             (CookieHeader.name_value
              <$> [(js "a", js "1"); (proto_key, js "x"); (js "b", js "x=y;z");
                   (js "a", js "2")])))
  = list_to_map
      (reverse
         (filter (fun kv => kv.1 ≠ proto_key)
            [(js "a", js "1"); (proto_key, js "x"); (js "b", js "x=y;z");
             (js "a", js "2")]))
  ∧ Cookie.parse Cookie.decode_ascii
      (Some (CookieHeader.join
               (CookieHeader.name_value
                <$> [(js "a", js "1"); (proto_key, js "x");
                     (js "b", js "x=y;z"); (js "a", js "2")])))
    !! proto_key = None.
Proof.
  apply (parse_joined_pairs Cookie.decode_ascii _ decode_ascii_plain).
  repeat first
    [ apply Forall_nil_2
    | apply Forall_cons_2
    | apply conj
    | discriminate
    | (apply (bool_decide_unpack _); vm_compute; exact I) ].
Defined.

Lemma fragment_cut_at_first_equals_witness :
  Cookie.cookie_step Cookie.decode_ascii ∅ (js "a" ++ equals_sign :: js "b=c")
  = (if bool_decide (js "a" = [] ∨ js "b=c" = []
                     ∨ trim (Cookie.decode_ascii (js "a")) = proto_key)
     then ∅
     else <[trim (Cookie.decode_ascii (js "a"))
            := trim (Cookie.decode_ascii (js "b=c"))]> ∅).
Proof.
  apply (fragment_cut_at_first_equals Cookie.decode_ascii ∅ (js "a")
           (js "b=c")).
  apply (bool_decide_unpack _). vm_compute. exact I.
Defined.

(** ** More on discovery *)

Lemma string_lt_asym a : forall b,
  Version.string_lt a b = true -> Version.string_lt b a = false.
Proof.
  induction a as [|x a IH]; intros [|y b]; simpl; try done.
  destruct (N.ltb_spec x y), (N.ltb_spec y x); try done; try lia.
  apply IH.
Qed.

Lemma string_lt_common_prefix p a b :
  Version.string_lt (p ++ a) (p ++ b) = Version.string_lt a b.
Proof.
  induction p as [|x p IH]; [done|]. simpl.
  by rewrite N.ltb_irrefl.
Qed.

Lemma underscores_to_slashes_clean s :
  underscore ∉ Registry.underscores_to_slashes s.
Proof.
  unfold Registry.underscores_to_slashes.
  rewrite list_elem_of_fmap. intros (c & Hc & _).
  destruct (N.eqb_spec c underscore); [discriminate Hc | congruence].
Qed.

Lemma module_route name :
  Registry.endsWith (js ".js") (name ++ js ".js") = true
  ∧ Registry.parseRoute None (name ++ js ".js")
    = slash :: Registry.underscores_to_slashes name.
Proof.
  assert (Hends : Registry.endsWith (js ".js") (name ++ js ".js") = true).
  { unfold Registry.endsWith. rewrite length_app.
    apply andb_true_iff. split; [apply Nat.leb_le; lia|].
    apply bool_decide_eq_true.
    by rewrite Nat.add_sub, drop_app_length. }
  split; [done|].
  rewrite (parseRoute_default None _ Hends eq_refl).
  unfold Registry.route_by_rule.
  rewrite length_app, Nat.add_sub, take_app_length.
  by rewrite underscores_to_slashes_rule.
Qed.

Section DiscoveryFacts.
Import Registry.
Context {Mod : Type}.
Variable require : jsstring -> Mod.
Variable path_join : jsstring -> jsstring -> jsstring.

Local Abbreviation is_module := (fun file => endsWith (js ".js") file = true).
Local Abbreviation discover := (getModulesDefinitions require path_join).

(** X5. Without a table, a route starts with a separator and has no
    underscore in it, whatever the file name: the three routes of the
    table [special] are the routes of no file name under the rule. *)
Theorem rule_routes_have_no_underscore fileName :
  head (parseRoute None fileName) = Some slash
  ∧ (underscore ∉ parseRoute None fileName)
  ∧ (∀ g r, special !! g = Some r -> parseRoute None fileName ≠ r)
  ∧ (∀ g r, special !! g = Some r -> parseRoute (Some special) g = r).
Proof.
  assert (Hno : underscore ∉ parseRoute None fileName).
  { unfold parseRoute. simpl. rewrite not_elem_of_cons.
    split; [done | apply underscores_to_slashes_clean]. }
  repeat apply conj; [done | exact Hno | |].
  - intros g r Hg Heq. apply Hno. rewrite Heq.
    by apply (proj2 special_table g).
  - intros g r Hg. unfold parseRoute. simpl. by rewrite Hg.
Qed.

(** X6. In a listing sorted by code units, a module [base.js] comes before
    a module [base_rest.js]; discovery turns the listing round, so, under
    any table that lists neither of the two files and under no table, the
    route [/base/rest] is registered before the route [/base] that it
    extends. *)
Theorem nested_route_registered_first files modulesPath doRequire sr base
    rest :
  StronglySorted (fun a b => Version.string_lt a b = true) files ->
  base ++ js ".js" ∈ files ->
  base ++ underscore :: rest ++ js ".js" ∈ files ->
  sr ≫= (.!! (base ++ js ".js")) = None ->
  sr ≫= (.!! (base ++ underscore :: rest ++ js ".js")) = None ->
  ∃ before between after,
    route <$> discover files modulesPath sr doRequire
    = before
      ++ (slash :: underscores_to_slashes base
            ++ slash :: underscores_to_slashes rest)
      :: between
      ++ (slash :: underscores_to_slashes base) :: after.
Proof.
  intros Hsorted Hparent Hchild Hpt Hct.
  set (parent := base ++ js ".js") in *.
  set (child := base ++ underscore :: rest ++ js ".js") in *.
  assert (Hlt : Version.string_lt parent child = true).
  { subst parent child. by rewrite string_lt_common_prefix. }
  destruct (list_elem_of_split _ _ Hparent) as (l1 & l2 & Hfiles).
  assert (Hin2 : child ∈ l2).
  { rewrite Hfiles in Hchild.
    apply elem_of_app in Hchild as [Hc|Hc].
    - rewrite Hfiles in Hsorted.
      apply StronglySorted_app in Hsorted as (Hrel & _ & _).
      assert (Hcp : Version.string_lt child parent = true).
      { apply Hrel; [exact Hc | left]. }
      by rewrite (string_lt_asym _ _ Hlt) in Hcp.
    - apply elem_of_cons in Hc as [Hc|Hc]; [|done].
      rewrite Hc, (string_lt_asym _ _ Hlt) in Hlt. discriminate Hlt. }
  destruct (list_elem_of_split _ _ Hin2) as (l3 & l4 & Hl2).
  destruct (module_route base) as [Hpm Hpr].
  destruct (module_route (base ++ underscore :: rest)) as [Hcm Hcr].
  rewrite <- app_assoc in Hcm, Hcr. simpl in Hcm, Hcr.
  fold parent in Hpm, Hpr. fold child in Hcm, Hcr.
  rewrite (parseRoute_default None parent Hpm eq_refl) in Hpr.
  rewrite (parseRoute_default None child Hcm eq_refl) in Hcr.
  rewrite <- (parseRoute_default sr parent Hpm Hpt) in Hpr.
  rewrite <- (parseRoute_default sr child Hcm Hct) in Hcr.
  exists (parseRoute sr <$> filter is_module (reverse l4)),
         (parseRoute sr <$> filter is_module (reverse l3)),
         (parseRoute sr <$> filter is_module (reverse l1)).
  rewrite discover_routes, Hfiles, Hl2.
  rewrite reverse_app, reverse_cons, reverse_app, reverse_cons.
  rewrite <- !app_assoc. simpl.
  repeat first [rewrite filter_app | rewrite filter_cons_True by done].
  repeat first [rewrite fmap_app | rewrite fmap_cons].
  rewrite Hpr, Hcr. unfold underscores_to_slashes.
  rewrite fmap_app, fmap_cons. reflexivity.
Qed.

(** X7. The identifier of a module is the file name up to its first dot:
    it has no dot, the file name is the identifier alone or the identifier,
    a dot and a rest, and for a name without a dot in front of [.js] it is
    that name. *)
Theorem identifier_up_to_first_dot file :
  (dot ∉ identifier_of file)
  ∧ (file = identifier_of file
     ∨ ∃ rest, file = identifier_of file ++ dot :: rest)
  ∧ (∀ rest, dot ∉ file -> identifier_of (file ++ dot :: rest) = file)
  ∧ (∀ modulesPath sr doRequire,
       dot ∉ file ->
       identifier
       <$> discover [file ++ js ".js"] modulesPath sr doRequire = [file]).
Proof.
  assert (Hcut : ∀ rest, dot ∉ file ->
            identifier_of (file ++ dot :: rest) = file).
  { intros rest. induction file as [|c file IH]; intros Hf.
    - reflexivity.
    - apply not_elem_of_cons in Hf as [Hc Hf]. simpl.
      destruct (N.eqb_spec c dot); [congruence|]. by rewrite IH. }
  repeat apply conj; [| |exact Hcut|].
  - clear Hcut. induction file as [|c file IH]; [apply not_elem_of_nil|].
    simpl. destruct (N.eqb_spec c dot); [apply not_elem_of_nil|].
    apply not_elem_of_cons. split; [congruence | exact IH].
  - clear Hcut. induction file as [|c file IH]; [by left|].
    simpl. destruct (N.eqb_spec c dot) as [->|Hc].
    + right. by exists file.
    + destruct IH as [IH|[rest IH]].
      * left. by f_equal.
      * right. exists rest. simpl. by f_equal.
  - intros modulesPath sr doRequire Hf.
    unfold getModulesDefinitions.
    change (reverse [file ++ js ".js"]) with [file ++ js ".js"].
    rewrite filter_cons_True by apply module_route.
    simpl. f_equal. apply (Hcut (js "js") Hf).
Qed.

End DiscoveryFacts.

Lemma nested_route_registered_first_witness :
  ∃ before between after,
    Registry.route
    <$> Registry.getModulesDefinitions Sample.require Sample.path_join
          [js "daily_signin.js"; js "user.js"; js "user_detail.js"]
          (js "./module") (Some Registry.special) true
    = before
      ++ (slash :: Registry.underscores_to_slashes (js "user")
            ++ slash :: Registry.underscores_to_slashes (js "detail"))
      :: between
      ++ (slash :: Registry.underscores_to_slashes (js "user")) :: after.
Proof.
  apply (nested_route_registered_first Sample.require Sample.path_join
           [js "daily_signin.js"; js "user.js"; js "user_detail.js"]
           (js "./module") true (Some Registry.special)
           (js "user") (js "detail")).
  - repeat constructor.
  - right. left.
  - right. right. left.
  - reflexivity.
  - reflexivity.
Defined.

(** ** More on the route handler *)

Section HandlerFacts.
Import Dispatcher.
Variable decode : jsstring -> jsstring.
Variable cookieToJson : jsstring -> jsval.
Variable ToString : jsval -> jsstring.
Context {Resp : Type}.
Variable request : list jsval -> Resp.
Variable module : jsobj -> (list jsval -> Resp) -> outcome.

Local Abbreviation handle :=
  (route_handler decode cookieToJson ToString request module).
Local Abbreviation called := (call_module request module).
Local Abbreviation prepared := (cookie_fields_to_json decode cookieToJson).

Lemma on_success_shape req r :
  ∃ pre, on_success ToString req r = pre ++ [Status (status r); Send (body r)]
         ∧ (pre = [] ∨ ∃ v, pre = [Append (js "Set-Cookie") v]).
Proof.
  unfold on_success.
  destruct (cookie r) as [| |b|x|s|[|c l]|o];
    try (exists []; split; [reflexivity | by left]).
  destruct (bool_decide (protocol req = js "https"));
    eexists; (split; [reflexivity | right; by eexists]).
Qed.

Lemma on_failure_shape r :
  ∃ pre s b, on_failure r = pre ++ [Status s; Send b]
             ∧ (pre = [] ∨ ∃ v, pre = [Append (js "Set-Cookie") v]).
Proof.
  unfold on_failure. destruct (truthy (body r)); simpl.
  - eexists [_], _, _. split; [reflexivity | right; by eexists].
  - exists [], (JNum 404), not_found. split; [reflexivity | by left].
Qed.

(** X8. When the promise of the module settles and the calls on [res]
    return, the handler answers once, with one exception. After a
    resolution, and after a rejection with a value whose fields can be
    read, its calls on [res] end with one [status] and one [send], and
    nothing comes before them but at most one [append] of [Set-Cookie];
    a resolution with [undefined] or [null] is answered with the fixed
    404. After a rejection with [undefined] or
    [null] the [catch] block throws before any call on [res], and the
    handler does not answer. *)
Theorem handler_answers_once
    (settles : jsobj -> (list jsval -> Resp) -> Settlement.settled) req :
  let s := Settlement.call_module request settles (prepared req) in
  let calls :=
    (Settlement.route_handler decode cookieToJson ToString request settles
       req).2 in
  (s = Settlement.Rejects None <-> calls = None)
  ∧ (s = Settlement.Resolves None ->
     calls = Some [Status (JNum 404); Send not_found])
  ∧ (s ≠ Settlement.Rejects None ->
     ∃ pre st b,
       calls = Some (pre ++ [Status st; Send b])
       ∧ (pre = [] ∨ ∃ v, pre = [Append (js "Set-Cookie") v])
       ∧ (∀ p, Send p ∈ pre ++ [Status st; Send b] -> p = b)
       ∧ (∀ c, Status c ∈ pre ++ [Status st; Send b] -> c = st))
  ∧ Settlement.route_handler decode cookieToJson ToString request
      (fun q w => Settlement.of_outcome (module q w)) req
    = ((handle req).1, Some (handle req).2).
Proof.
  unfold Settlement.route_handler. cbn [snd].
  set (s := Settlement.call_module request settles (prepared req)).
  repeat apply conj.
  - by destruct s as [[r|]|[r|]].
  - by destruct s as [[r|]|[r|]].
  - by intros ->.
  - intros Hs.
    assert (Hshape : ∃ pre st b,
      Settlement.answer ToString (prepared req) s
      = Some (pre ++ [Status st; Send b])
      ∧ (pre = [] ∨ ∃ v, pre = [Append (js "Set-Cookie") v])).
    { destruct s as [[r|]|[r|]]; cbn [Settlement.answer].
      - destruct (on_success_shape (prepared req) r) as (pre & -> & Hpre).
        by exists pre, (status r), (body r).
      - destruct (on_failure_shape Settlement.type_error)
          as (pre & st & b & -> & Hpre).
        by exists pre, st, b.
      - destruct (on_failure_shape r) as (pre & st & b & -> & Hpre).
        by exists pre, st, b.
      - done. }
    destruct Hshape as (pre & st & b & Heq & Hpre).
    exists pre, st, b. split; [done|]. split; [done|].
    split; intros x; destruct Hpre as [->|[v ->]]; simpl;
      rewrite ?elem_of_cons, elem_of_nil;
      intuition (try discriminate; congruence).
  - unfold route_handler, Settlement.call_module, call_module. cbn [fst snd].
    f_equal.
    by destruct (module _ _).
Qed.

Lemma cookie_to_json_dom (item : jsobj) :
  dom (cookie_to_json decode cookieToJson item) = dom item.
Proof.
  unfold cookie_to_json.
  destruct (item !! js "cookie") as [v|] eqn:E; [|done].
  destruct v; try done. simpl.
  apply dom_insert_lookup_L. by eexists.
Qed.

Lemma cookie_to_json_cookie (item : jsobj) :
  cookie_to_json decode cookieToJson item !! js "cookie"
  = match item !! js "cookie" with
    | Some (JStr s) => Some (cookieToJson (decode s))
    | other => other
    end.
Proof.
  unfold cookie_to_json.
  destruct (item !! js "cookie") as [v|] eqn:E; [|exact E].
  destruct v; simpl; try exact E.
  apply lookup_insert_eq.
Qed.

Lemma cookie_to_json_is_Some (item : jsobj) k :
  is_Some (cookie_to_json decode cookieToJson item !! k)
  <-> is_Some (item !! k).
Proof. by rewrite <- !elem_of_dom, cookie_to_json_dom. Qed.

(** X10. The keys of the parameters other than [__proto__] are [cookie]
    and the keys of the query, of the body and of the files: the handler
    brings in no other key and drops none of these. The key [__proto__]
    of a source is not copied: it is a key of the parameters only when
    two of the three sources hold it. *)
Theorem parameters_keys req :
  (∀ k, k ≠ proto_key ->
     k ∈ dom (parameters (handle req).1)
     <-> k = js "cookie" ∨ k ∈ dom (query req) ∨ k ∈ dom (body_fields req)
         ∨ k ∈ dom (own_props (files req)))
  ∧ (proto_key ∈ dom (parameters (handle req).1) ->
     (is_Some (query req !! proto_key)
      ∧ is_Some (body_fields req !! proto_key))
     ∨ (is_Some (query req !! proto_key)
        ∧ is_Some (own_props (files req) !! proto_key))
     ∨ (is_Some (body_fields req !! proto_key)
        ∧ is_Some (own_props (files req) !! proto_key))).
Proof.
  unfold route_handler. cbn [fst]. split.
  - intros k Hk. rewrite !elem_of_dom, parameters_lookup by done.
    cbn [files body_fields query cookies cookie_fields_to_json].
    rewrite <- (cookie_to_json_is_Some (query req) k).
    rewrite <- (cookie_to_json_is_Some (body_fields req) k).
    destruct (own_props (files req) !! k) as [vf|];
      [split; [intros _; do 3 right; by eexists | by eexists]|].
    destruct (cookie_to_json decode cookieToJson (body_fields req) !! k)
      as [vb|]; [split; [intros _; do 2 right; left; by eexists | by eexists]|].
    destruct (cookie_to_json decode cookieToJson (query req) !! k)
      as [vq|]; [split; [intros _; right; left; by eexists | by eexists]|].
    case_bool_decide as Hc.
    + split; [by left | by eexists].
    + split; [by intros [? [=]]|].
      intros [?|[[? [=]]|[[? [=]]|[? [=]]]]]. done.
  - rewrite elem_of_dom. intros Hsome.
    apply parameters_proto_key in Hsome.
    cbn [files body_fields query cookies cookie_fields_to_json] in Hsome.
    by rewrite !cookie_to_json_is_Some in Hsome.
Qed.

(** X11. What a module finds under [cookie]: the field of the files if
    there is one, else that of the body, else that of the query, a string
    field of the body or the query turned into an object by [cookieToJson];
    the cookies of the header only when none of the three has the key.
    The cookies of the header are never merged with a field. *)
Theorem parameters_cookie req :
  parameters (handle req).1 !! js "cookie"
  = Some
      match own_props (files req) !! js "cookie" with
      | Some v => v
      | None =>
          match body_fields req !! js "cookie" with
          | Some (JStr s) => cookieToJson (decode s)
          | Some v => v
          | None =>
              match query req !! js "cookie" with
              | Some (JStr s) => cookieToJson (decode s)
              | Some v => v
              | None => JObj (JStr <$> cookies req)
              end
          end
      end.
Proof.
  unfold route_handler. cbn [fst].
  rewrite parameters_lookup by apply cookie_is_not_proto_key.
  cbn [files body_fields query cookies cookie_fields_to_json].
  rewrite !cookie_to_json_cookie, bool_decide_true by done.
  destruct (own_props (files req) !! js "cookie") as [v|]; [done|].
  destruct (body_fields req !! js "cookie") as [[| |b|x|s|l|o]|]; try done.
  by destruct (query req !! js "cookie") as [[| |b|x|s|l|o]|].
Qed.

End HandlerFacts.

(** ** The first middleware *)

Ltac absent H :=
  repeat (apply elem_of_cons in H as [H|H]; [discriminate H|]);
  by apply elem_of_nil in H.

(** X12. A request with the method OPTIONS is answered with 204 and is
    never passed on, whatever its path; any other request is passed on
    and not answered. The headers are set exactly for a path other than
    [/] without a dot, and the origin they allow is the origin of the
    request, or [*] when that is absent or empty. *)
Theorem preflight_answered_here path method origin :
  (method = js "OPTIONS" ->
   (Cors.Next ∉ Cors.middleware path method origin)
   ∧ ∃ pre, Cors.middleware path method origin
            = pre ++ [Cors.ResStatus (JNum 204); Cors.ResEnd])
  ∧ (method ≠ js "OPTIONS" ->
     (Cors.ResEnd ∉ Cors.middleware path method origin)
     ∧ (∀ code, Cors.ResStatus code ∉ Cors.middleware path method origin)
     ∧ last (Cors.middleware path method origin) = Some Cors.Next)
  ∧ (∀ hs, Cors.ResSet hs ∈ Cors.middleware path method origin
           <-> path ≠ js "/" ∧ (dot ∉ path) ∧ hs = Cors.headers origin)
  ∧ Cors.headers origin !! js "Access-Control-Allow-Origin"
    = Some (JStr (Cors.allow_origin origin))
  ∧ Cors.allow_origin origin ≠ []
  ∧ (∀ o, o ≠ [] -> Cors.allow_origin (Some o) = o).
Proof.
  assert (Hapi : Cors.is_api_path path = true
                 <-> path ≠ js "/" ∧ (dot ∉ path)).
  { unfold Cors.is_api_path. rewrite andb_true_iff, !negb_true_iff.
    by rewrite !bool_decide_eq_false. }
  unfold Cors.middleware. repeat apply conj.
  - intros ->. rewrite bool_decide_true by done.
    split; [|by eexists].
    destruct (Cors.is_api_path path); simpl; intros Hin; absent Hin.
  - intros Hm. rewrite bool_decide_false by done.
    destruct (Cors.is_api_path path); simpl;
      (split; [intros Hin; absent Hin|]);
      (split; [intros code Hin; absent Hin | reflexivity]).
  - intros hs. split.
    + intros Hin.
      destruct (Cors.is_api_path path) eqn:E.
      * destruct (proj1 Hapi eq_refl) as [H1 H2].
        apply elem_of_app in Hin as [Hin|Hin].
        -- apply elem_of_cons in Hin as [Hin|Hin]; [|absent Hin].
           injection Hin as ->. done.
        -- destruct (bool_decide (method = js "OPTIONS")); absent Hin.
      * apply elem_of_app in Hin as [Hin|Hin]; [absent Hin|].
        destruct (bool_decide (method = js "OPTIONS")); absent Hin.
    + intros (H1 & H2 & ->).
      rewrite (proj2 Hapi (conj H1 H2)). apply elem_of_app. left. left.
  - reflexivity.
  - by destruct origin as [[|c o]|].
  - by intros [|c o].
Qed.

(** ** The version check *)

(** X13. The promise of [checkVersion] always has the status FAILED and no
    version: the executor resolves it before the callback of [exec] can
    run, and the callback's own result, NOT_LATEST or LATEST, comes too
    late. So [serveNcmApi] never prints the notice of a newer version. *)
Theorem checkVersion_always_failed packageVersion ended options_checkVersion :
  Version.checkVersion packageVersion ended
  = Some {| Version.status := Version.FAILED;
            Version.ourVersion := None;
            Version.npmVersion := None |}
  ∧ Version.notice_printed options_checkVersion
      (Version.checkVersion packageVersion ended) = false
  ∧ (∀ stdout,
       Version.exec_callback packageVersion false stdout None
       = Some {| Version.status :=
                   if Version.string_lt packageVersion (trim stdout)
                   then Version.NOT_LATEST else Version.LATEST;
                 Version.ourVersion := Some packageVersion;
                 Version.npmVersion := Some (trim stdout) |})
  ∧ (∀ stdout,
       Version.string_lt packageVersion (trim stdout) = true ->
       Version.notice_printed true
         (Version.exec_callback packageVersion false stdout None) = true).
Proof.
  assert (H : Version.checkVersion packageVersion ended
              = Some {| Version.status := Version.FAILED;
                        Version.ourVersion := None;
                        Version.npmVersion := None |}).
  { unfold Version.checkVersion, Version.exec_callback.
    destruct ended as [[[|] stdout]|]; reflexivity. }
  repeat apply conj; try reflexivity.
  - exact H.
  - rewrite H. by destruct options_checkVersion.
  - intros stdout Hlt. unfold Version.exec_callback. simpl. by rewrite Hlt.
Qed.

(** X14. The value that [serveNcmApi] gives to [Number] for the port is
    never falsy: a falsy port option (the number 0, the empty string,
    none) gives way to the variable PORT, and that, when unset or empty,
    to ['3000']; a truthy option, the string ['0'] among them, is passed
    as it is. The host that is logged is never empty. *)
Theorem port_and_host_defaults options_port env_PORT options_host env_HOST :
  truthy (Version.port_argument options_port env_PORT) = true
  ∧ (truthy options_port = true ->
     Version.port_argument options_port env_PORT = options_port)
  ∧ (truthy options_port = false -> truthy env_PORT = true ->
     Version.port_argument options_port env_PORT = env_PORT)
  ∧ (truthy options_port = false -> truthy env_PORT = false ->
     Version.port_argument options_port env_PORT = JStr (js "3000"))
  ∧ Version.port_argument (JNum 0) env_PORT
    = Version.port_argument JUndefined env_PORT
  ∧ Version.port_argument (JStr (js "0")) env_PORT = JStr (js "0")
  ∧ truthy (Version.logged_host (Version.host options_host env_HOST)) = true
  ∧ (truthy options_host = false -> truthy env_HOST = false ->
     Version.host options_host env_HOST = JStr []
     ∧ Version.logged_host (Version.host options_host env_HOST)
       = JStr (js "localhost")).
Proof.
  assert (Hor : forall a b, truthy a = false -> Version.or_else a b = b).
  { intros a b H. unfold Version.or_else. by rewrite H. }
  assert (Hol : forall a b, truthy a = true -> Version.or_else a b = a).
  { intros a b H. unfold Version.or_else. by rewrite H. }
  unfold Version.port_argument, Version.host.
  repeat apply conj.
  - destruct (truthy (Version.or_else options_port env_PORT)) eqn:E.
    + by rewrite Hol.
    + by rewrite Hor.
  - intros H. rewrite (Hol options_port) by done. by rewrite Hol.
  - intros H1 H2. rewrite (Hor options_port) by done. by rewrite Hol.
  - intros H1 H2. rewrite (Hor options_port) by done. by rewrite Hor.
  - reflexivity.
  - reflexivity.
  - unfold Version.logged_host.
    by destruct (truthy (Version.or_else _ (JStr []))) eqn:E.
  - intros H1 H2. rewrite (Hor options_host) by done. by rewrite Hor.
Qed.

(** ** Headers without a pair *)

Lemma split_loop_units subject : forall fuel p q,
  Forall (fun frag => ∀ c, c ∈ frag -> c ∈ subject)
    (Cookie.split_loop fuel subject p q).
Proof.
  assert (Hdrop : ∀ p c, c ∈ drop p subject -> c ∈ subject).
  { intros p c Hc. rewrite <- (take_drop p subject).
    apply elem_of_app. by right. }
  assert (Htake : ∀ n p c, c ∈ take n (drop p subject) -> c ∈ subject).
  { intros n p c Hc. apply (Hdrop p).
    rewrite <- (take_drop n (drop p subject)). apply elem_of_app. by left. }
  induction fuel as [|fuel IH]; intros p q; simpl.
  { constructor; [apply Hdrop | constructor]. }
  destruct (length subject <=? q).
  { constructor; [apply Hdrop | constructor]. }
  destruct (Cookie.exec_at subject q) as [e|]; [|apply IH].
  constructor; [apply Htake | apply IH].
Qed.

(** X15. A header without any [=] gives no cookie at all, and so does an
    absent or an empty header: the middleware leaves [req.cookies]
    empty and reports nothing. *)
Theorem header_without_equals decode header :
  equals_sign ∉ default [] header ->
  Cookie.parse decode header = ∅.
Proof.
  intros Hno. unfold Cookie.parse, Cookie.split.
  pose proof (split_loop_units (default [] header)
                (S (length (default [] header))) 0 0) as Hfrags.
  induction Hfrags as [|frag frags Hfrag _ IH]; [done|].
  simpl. rewrite cookie_step_skips; [exact IH|].
  left. intros Hin. apply Hno. by apply Hfrag.
Qed.

Lemma header_without_equals_witness :
  Cookie.parse Cookie.decode_ascii (Some (js "theme; lang ;  ")) = ∅.
Proof.
  apply (header_without_equals Cookie.decode_ascii
           (Some (js "theme; lang ;  "))).
  apply (bool_decide_unpack _). vm_compute. exact I.
Defined.

(** ** White space at the end of a header *)

Lemma is_space_not_semicolon w :
  is_space w = true -> (w =? semicolon)%N = false.
Proof.
  intros Hw. destruct (N.eqb_spec w semicolon) as [->|]; [|done].
  by vm_compute in Hw.
Qed.

(** At the last unit of a fragment that does not end in [;] no match
    starts, whatever follows. *)
Lemma exec_at_last subject q c rest :
  drop q subject = c :: rest ->
  is_space c = false ->
  c ≠ semicolon ->
  Cookie.exec_at subject q = None.
Proof.
  intros Hd Hc Hsemi. unfold Cookie.exec_at. rewrite Hd.
  apply N.eqb_neq in Hsemi. rewrite Hsemi, Hc. cbn [andb].
  by rewrite andb_false_r.
Qed.

(** The second alternative: white space up to the end, after a unit that
    is none. *)
Lemma exec_at_trailing subject pre c ws :
  subject = pre ++ c :: ws ->
  is_space c = false ->
  ws ≠ [] ->
  Forall (fun c => is_space c = true) ws ->
  Cookie.exec_at subject (S (length pre)) = Some (length subject).
Proof.
  intros Hsub Hc Hne Hws. unfold Cookie.exec_at.
  assert (Hd : drop (S (length pre)) subject = ws).
  { rewrite Hsub, cons_middle, app_assoc. apply drop_app_length'.
    rewrite length_app. simpl. lia. }
  assert (Hl : subject !! length pre = Some c).
  { rewrite Hsub. by apply list_lookup_middle. }
  rewrite Hd, Hl. clear Hd Hl Hsub.
  destruct Hws as [|w ws Hw Hws]; [done|].
  rewrite (is_space_not_semicolon w Hw). cbn [andb from_option].
  rewrite Hc, Hw. cbn [negb andb].
  replace (forallb is_space ws) with true; [done|].
  symmetry. clear -Hws.
  induction Hws as [|x ws Hx _ IH]; [done|]. simpl. by rewrite Hx.
Qed.

Lemma join_last_head frags c ws :
  Forall (Forall (fun c => is_space c = false)) frags ->
  last frags ≫= last = Some c ->
  from_option is_space false (head (CookieHeader.join frags ++ ws)) = false.
Proof.
  intros Hall Hlast.
  assert (Hjoin : ∃ d l, CookieHeader.join frags = d :: l).
  { destruct frags as [|f [|g fs]]; [done| |].
    - simpl in *. destruct f; [done | by eauto].
    - change (CookieHeader.join (f :: g :: fs))
        with (f ++ semicolon :: 32%N :: CookieHeader.join (g :: fs)).
      destruct f; simpl; by eauto. }
  destruct Hjoin as (d & l & Hjoin).
  pose proof (join_head frags Hall) as Hhead.
  rewrite Hjoin in *. exact Hhead.
Qed.

Lemma split_loop_join_spaces ws c : forall frags pre fuel,
  Forall (Forall (fun c => is_space c = false)) frags ->
  last frags ≫= last = Some c ->
  c ≠ semicolon ->
  ws ≠ [] ->
  Forall (fun c => is_space c = true) ws ->
  length (CookieHeader.join frags ++ ws) < fuel ->
  Cookie.split_loop fuel (pre ++ CookieHeader.join frags ++ ws)
    (length pre) (length pre)
  = frags ++ [[]].
Proof.
  induction frags as [|f frags IH];
    intros pre fuel Hall Hlast Hsemi Hne Hws Hfuel; [done|].
  apply Forall_cons in Hall as [Hf Hall].
  destruct frags as [|g fs].
  - simpl in Hlast. apply last_Some in Hlast as [f' ->].
    apply Forall_app in Hf as [Hf' Hc]. rewrite Forall_singleton in Hc.
    cbn [CookieHeader.join] in *.
    rewrite !length_app in Hfuel. cbn [length] in Hfuel.
    set (subject := pre ++ (f' ++ [c]) ++ ws).
    assert (Hsub : subject = pre ++ f' ++ c :: ws).
    { subst subject. by rewrite <- !app_assoc. }
    assert (Hlen : length subject = length (pre ++ f') + S (length ws)).
    { rewrite Hsub, !length_app. simpl. lia. }
    pose proof (split_loop_scan subject pre (c :: ws) fuel f' []) as Hscan.
    rewrite !app_nil_r in Hscan. simpl in Hscan.
    rewrite Hscan; [|done|done|done|].
    2: { rewrite Hlen, !length_app. clear -Hfuel. lia. }
    rewrite split_loop_step by (rewrite Hlen; clear -Hfuel; lia).
    destruct (Nat.leb_spec (length subject) (length (pre ++ f'))); [lia|].
    rewrite (exec_at_last subject _ c ws); [| |done|done].
    2: { by rewrite Hsub, app_assoc, drop_app_length. }
    rewrite split_loop_step by (rewrite Hlen; clear -Hfuel; lia).
    destruct (Nat.leb_spec (length subject) (S (length (pre ++ f'))));
      [destruct ws; [done | simpl in *; lia]|].
    rewrite (exec_at_trailing subject (pre ++ f') c ws);
      [| by rewrite Hsub, <- app_assoc | done | done | done].
    change ([f' ++ [c]] ++ [[]]) with [f' ++ [c]; []]. f_equal.
    + replace (S (length (pre ++ f')) - length pre) with (length (f' ++ [c]))
        by (rewrite !length_app; simpl; lia).
      subst subject. by rewrite drop_app_length, take_app_length.
    + rewrite split_loop_step by (clear -Hfuel; lia).
      rewrite Nat.leb_refl. by rewrite drop_all.
  - change (last (f :: g :: fs)) with (last (g :: fs)) in Hlast.
    change (CookieHeader.join (f :: g :: fs))
      with (f ++ semicolon :: 32%N :: CookieHeader.join (g :: fs)) in *.
    assert (Hhead : from_option is_space false
                      (head (CookieHeader.join (g :: fs) ++ ws)) = false)
      by by apply (join_last_head _ c).
    specialize (IH (pre ++ f ++ [semicolon; 32%N]) fuel Hall Hlast Hsemi
                  Hne Hws).
    remember (CookieHeader.join (g :: fs) ++ ws) as rest eqn:Hrest.
    rewrite <- app_assoc in Hfuel. cbn [app] in Hfuel.
    rewrite <- Hrest in Hfuel. rewrite length_app in Hfuel.
    cbn [length] in Hfuel.
    rewrite <- (app_assoc f). cbn [app]. rewrite <- Hrest.
    set (subject := pre ++ f ++ semicolon :: 32%N :: rest).
    pose proof (split_loop_scan subject pre (semicolon :: 32%N :: rest)
                  fuel f []) as Hscan.
    rewrite !app_nil_r in Hscan. simpl in Hscan.
    rewrite Hscan; [|done|done|done|].
    2: { subst subject. rewrite !length_app in *. simpl in *.
         clear -Hfuel. lia. }
    assert (Hlen : length subject = length (pre ++ f) + S (S (length rest))).
    { subst subject. rewrite !length_app. simpl. lia. }
    rewrite split_loop_step by lia.
    destruct (Nat.leb_spec (length subject) (length (pre ++ f))); [lia|].
    rewrite (exec_at_separator subject (pre ++ f) rest);
      [|by subst subject; rewrite <- app_assoc | done].
    cbn [app]. f_equal.
    + rewrite length_app, Nat.add_comm, Nat.add_sub.
      subst subject. by rewrite drop_app_length, take_app_length.
    + replace (length (pre ++ f) + 2)
        with (length (pre ++ f ++ [semicolon; 32%N]))
        by (rewrite !length_app; simpl; lia).
      replace subject with ((pre ++ f ++ [semicolon; 32%N]) ++ rest)
        by (subst subject; by rewrite <- !app_assoc).
      apply IH. clear -Hfuel. lia.
Qed.

(** X16. White space at the end of a header is cut off by the second
    alternative of the pattern: when the fragments hold no white space
    and the last one is not empty and does not end in [;], the header
    with white space after it splits into the same fragments and one
    empty fragment, which the step skips, so the cookies are those of
    the header without the white space. *)
Theorem trailing_space_cut decode frags ws c :
  Forall (Forall (fun c => is_space c = false)) frags ->
  last frags ≫= last = Some c ->
  c ≠ semicolon ->
  ws ≠ [] ->
  Forall (fun c => is_space c = true) ws ->
  Cookie.split (CookieHeader.join frags ++ ws) = frags ++ [[]]
  ∧ Cookie.parse decode (Some (CookieHeader.join frags ++ ws))
    = Cookie.parse decode (Some (CookieHeader.join frags)).
Proof.
  intros Hall Hlast Hsemi Hne Hws.
  assert (Hfrags : frags ≠ []) by (by destruct frags).
  assert (Hsplit : Cookie.split (CookieHeader.join frags ++ ws)
                   = frags ++ [[]]).
  { unfold Cookie.split.
    apply (split_loop_join_spaces ws c frags []); try done. lia. }
  split; [exact Hsplit|].
  unfold Cookie.parse. cbn [from_option id]. rewrite Hsplit, foldl_app.
  cbn [foldl]. rewrite cookie_step_skips by (left; apply not_elem_of_nil).
  f_equal. symmetry. unfold Cookie.split.
  apply (split_loop_join frags []); [done | done | lia].
Qed.

Lemma trailing_space_cut_witness :
  Cookie.split (js "a=1; b=2" ++ [32%N; 9%N]) = [js "a=1"; js "b=2"; []]
  ∧ Cookie.parse Cookie.decode_ascii (Some (js "a=1; b=2" ++ [32%N; 9%N]))
    = Cookie.parse Cookie.decode_ascii (Some (js "a=1; b=2")).
Proof.
  apply (trailing_space_cut Cookie.decode_ascii [js "a=1"; js "b=2"]
           [32%N; 9%N] 50%N).
  - apply (bool_decide_unpack _). vm_compute. exact I.
  - reflexivity.
  - discriminate.
  - discriminate.
  - apply (bool_decide_unpack _). vm_compute. exact I.
Defined.
